(** * Zenics clip catalog: list / search / pagination / metadata mutations

    A shallow embedding of the Convex handlers of the repository

      - search   ([api.search])   : [tokenize], [matchesQuery], [query]
      - clips    ([api.clips])    : [getPlaybackUrl], [get], [list],
                                    [updateMeta], [deleteClip]
      - sessions ([api.sessions]) : [create], [list], [rename], [deleteSession]
      - upload   ([api.upload])   : [requestUpload], [finalizeUpload]
      - schema                    : the [clips] and [sessions] tables

    The database is two finite maps from document ids to documents, with
    the next id to issue; a mutation is a function from a database to an
    outcome and a database, a query a function from a database to a result.
    JavaScript strings are sequences of code points below 256 (Latin-1),
    JavaScript numbers that serve as indexes, and the size [requestUpload]
    checks, are an integer or [NaN]; timestamps and stored sizes are
    integers. *)

From Stdlib Require Import ZArith String Ascii List Sorted Decimal DecimalString.
From Stdlib Require Import DecimalPos DecimalN.
From stdpp Require Import base decidable option list sorting gmap strings.

Local Open Scope string_scope.
Local Open Scope Z_scope.

(** ** JavaScript runtime fragments *)

Module JS.

(** *** Characters

    A character is a code point below 256.  The classes are the ones the
    regular expressions of [search.ts] use: [\w] is [A-Za-z0-9_], [\s] is
    the ECMAScript white space and line terminators (below 256 these are
    TAB, LF, VT, FF, CR, SPACE and NBSP). *)

Definition code (c : ascii) : N := N_of_ascii c.

Definition between (lo hi n : N) : bool := ((lo <=? n) && (n <=? hi))%N.

Definition is_digit (c : ascii) : bool := between 48 57 (code c).

(** The letters of [\w]: [A-Z] and [a-z]. *)
Definition is_letter (c : ascii) : bool :=
  between 65 90 (code c) || between 97 122 (code c).

Definition is_underscore (c : ascii) : bool := (code c =? 95)%N.

(** [\w] *)
Definition is_word (c : ascii) : bool :=
  is_letter c || is_digit c || is_underscore c.

(** [\s] *)
Definition is_space (c : ascii) : bool :=
  between 9 13 (code c) || (code c =? 32)%N || (code c =? 160)%N.

(** [String.prototype.toLowerCase], one code point: [A-Z] and the upper case
    letters of the Latin-1 supplement (U+00C0 to U+00DE without U+00D7). *)
Definition lower_char (c : ascii) : ascii :=
  let n := code c in
  if between 65 90 n || (between 192 222 n && negb (n =? 215)%N)
  then ascii_of_N (n + 32) else c.

(** *** Strings *)

Fixpoint smap (f : ascii -> ascii) (s : string) : string :=
  match s with
  | EmptyString => EmptyString
  | String c r => String (f c) (smap f r)
  end.

Definition toLowerCase (s : string) : string := smap lower_char s.

Definition is_empty (s : string) : bool :=
  match s with EmptyString => true | String _ _ => false end.

(** Truthiness of a string: every string but the empty one. *)
Definition truthy_str (s : string) : bool := negb (is_empty s).

Fixpoint starts_with (p s : string) : bool :=
  match p, s with
  | EmptyString, _ => true
  | String _ _, EmptyString => false
  | String a p', String b s' => if Ascii.eqb a b then starts_with p' s' else false
  end.

(** [s.includes(t)]: [t] occurs in [s] at some position. *)
Fixpoint includes (s t : string) : bool :=
  starts_with t s ||
  match s with
  | EmptyString => false
  | String _ s' => includes s' t
  end.

(** [parts.join(sep)] *)
Fixpoint join (sep : string) (parts : list string) : string :=
  match parts with
  | [] => ""
  | [p] => p
  | p :: rest => p ++ sep ++ join sep rest
  end.

(** [s.split(/\s+/)].  The pieces between maximal runs of white space, in
    order; a leading or trailing run leaves an empty piece at that end, and
    the empty string splits into one empty piece.  [cur] is the piece being
    read, [in_run] tells that the previous character was white space. *)
Fixpoint split_ws_from (cur : string) (in_run : bool) (s : string) : list string :=
  match s with
  | EmptyString => [cur]
  | String c r =>
      if is_space c
      then if in_run then split_ws_from "" true r
           else cur :: split_ws_from "" true r
      else split_ws_from (cur ++ String c "") false r
  end.

Definition split_ws (s : string) : list string := split_ws_from "" false s.

(** [s.trim()] *)
Fixpoint trim_start (s : string) : string :=
  match s with
  | EmptyString => EmptyString
  | String c r => if is_space c then trim_start r else s
  end.

Fixpoint trim_end (s : string) : string :=
  match s with
  | EmptyString => EmptyString
  | String c r =>
      match trim_end r with
      | EmptyString => if is_space c then EmptyString else String c EmptyString
      | r' => String c r'
      end
  end.

Definition trim (s : string) : string := trim_end (trim_start s).

(** *** Numbers

    The numbers that [list] and [query] compute with are array indexes:
    the model keeps the integers and [NaN] (a double holds every integer
    below 2^53 exactly; array lengths stay below 2^32). *)

Inductive num : Type :=
  | NaN : num
  | Num : Z -> num.

(** [a + b] *)
Definition add (a b : num) : num :=
  match a, b with
  | Num x, Num y => Num (x + y)
  | _, _ => NaN
  end.

(** [a < b]: false as soon as one side is [NaN]. *)
Definition lt (a b : num) : bool :=
  match a, b with
  | Num x, Num y => x <? y
  | _, _ => false
  end.

(** Truthiness of a number: [0] and [NaN] are falsy. *)
Definition truthy_num (a : num) : bool :=
  match a with
  | NaN => false
  | Num z => negb (z =? 0)
  end.

(** [n.toString()] *)
Definition toString (a : num) : string :=
  match a with
  | NaN => "NaN"
  | Num z => NilZero.string_of_int (Z.to_int z)
  end.

Definition digit_value (c : ascii) : option Z :=
  if is_digit c then Some (Z.of_N (code c) - 48) else None.

(** The longest prefix of decimal digits, read left to right; [None] when
    there is no digit at all. *)
Fixpoint parse_digits (acc : option Z) (s : string) : option Z :=
  match s with
  | EmptyString => acc
  | String c r =>
      match digit_value c with
      | Some d => parse_digits (Some (10 * default 0 acc + d)) r
      | None => acc
      end
  end.

(** [parseInt(s, 10)]: skip leading white space, read an optional sign, then
    the longest run of digits; no digit gives [NaN].  It never throws. *)
Definition parseInt (s : string) : num :=
  let s1 := trim_start s in
  let '(sign, s2) :=
    match s1 with
    | String "-" r => (-1, r)
    | String "+" r => (1, r)
    | _ => (1, s1)
    end in
  match parse_digits None s2 with
  | None => NaN
  | Some m => Num (sign * m)
  end.

(** *** Arrays *)

(** ToIntegerOrInfinity followed by the clamping of a relative index of
    [Array.prototype.slice]: [NaN] is 0, a negative index counts from the
    end. *)
Definition rel_index (len : Z) (a : num) : Z :=
  match a with
  | NaN => 0
  | Num k => if k <? 0 then Z.max (len + k) 0 else Z.min k len
  end.

(** [l.slice(start, end)] *)
Definition slice {A} (l : list A) (start stop : num) : list A :=
  let len := Z.of_nat (length l) in
  let k := rel_index len start in
  let final := rel_index len stop in
  take (Z.to_nat (Z.max (final - k) 0)) (drop (Z.to_nat k) l).

Definition length_num {A} (l : list A) : num := Num (Z.of_nat (length l)).

End JS.

(** ** Data model ([schema.ts]) *)

(** Document ids are opaque handles issued by the database; user ids are the
    strings that end up inside object keys. *)
Abbreviation Id := positive (only parsing).
Abbreviation UserId := string (only parsing).

Inductive Angle : Type := front | side | deg45.

Inductive Apparatus : Type := floor | rings | bar | parallettes.

(** The string literal behind each enum value. *)
Definition angle_str (a : Angle) : string :=
  match a with front => "front" | side => "side" | deg45 => "45" end.

Definition apparatus_str (a : Apparatus) : string :=
  match a with
  | floor => "floor" | rings => "rings" | bar => "bar"
  | parallettes => "parallettes"
  end.

#[global] Instance Angle_eq_dec : EqDecision Angle.
Proof. solve_decision. Defined.

#[global] Instance Apparatus_eq_dec : EqDecision Apparatus.
Proof. solve_decision. Defined.

Module Clip.
Record t : Type := mk {
  userId : UserId;
  objectKey : string;
  createdAt : Z;
  bytes : Z;
  durationMs : option Z;
  width : option Z;
  height : option Z;
  tags : list string;
  angle : option Angle;
  apparatus : option Apparatus;
  favorite : option bool;
  sessionId : option Id
}.
End Clip.

Module Session.
Record t : Type := mk {
  userId : UserId;
  name : string;
  createdAt : Z
}.
End Session.

(** A clip as a query returns it: the document with its [_id]. *)
Abbreviation ClipDoc := (Id * Clip.t)%type (only parsing).
Abbreviation SessionDoc := (Id * Session.t)%type (only parsing).

(** The two tables, and the next id the database will issue: ids are
    issued in sequence and never a second time. *)
Record Db : Type := mkDb {
  clips : gmap Id Clip.t;
  sessions : gmap Id Session.t;
  next_id : Id
}.

Definition empty_db : Db := mkDb ∅ ∅ 1%positive.

(** What a handler hands back: a value, or the message of the [Error] it
    threw. *)
Inductive outcome (A : Type) : Type :=
  | Ok (a : A)
  | Throw (msg : string).
Arguments Ok {A} a.
Arguments Throw {A} msg.

(** [{ success: true }] *)
Inductive Success : Type := success.

(** ** Identity ([getCurrentUserId], the same in every file) *)

Definition DEV_USER_ID : UserId := "k17c9p6nqx6j9nqx6j9nqx6j9nqx6j9n".

(** [auth] is what [getAuthUserId(ctx)] resolves to: a user id or [null]. *)
Definition getCurrentUserId (auth : option UserId) : UserId :=
  match auth with
  | Some userId => if JS.truthy_str userId then userId else DEV_USER_ID
  | None => DEV_USER_ID
  end.

(** ** Index scans *)

(** [createdAt] descending. *)
Definition newer_first (a b : ClipDoc) : Prop :=
  Clip.createdAt b.2 <= Clip.createdAt a.2.

#[global] Instance newer_first_dec : RelDecision newer_first.
Proof. intros a b. unfold newer_first. apply _. Defined.

(** [.withIndex("by_user_and_created_at", q => q.eq("userId", userId))] *)
Definition by_user_and_created_at (userId : UserId) (db : Db) : list ClipDoc :=
  filter (λ d : ClipDoc, Clip.userId d.2 = userId) (map_to_list (clips db)).

(** [.order("desc").collect()] on that index.  Clips with the same
    [createdAt] come out in the order the database leaves them; here that is
    the order the merge sort gives to the enumeration of the table. *)
Definition order_desc (q : list ClipDoc) : list ClipDoc :=
  merge_sort newer_first q.

Definition sessions_by_user (userId : UserId) (db : Db) : list SessionDoc :=
  filter (λ d : SessionDoc, Session.userId d.2 = userId) (map_to_list (sessions db)).

Definition newer_session_first (a b : SessionDoc) : Prop :=
  Session.createdAt b.2 <= Session.createdAt a.2.

#[global] Instance newer_session_first_dec : RelDecision newer_session_first.
Proof. intros a b. unfold newer_session_first. apply _. Defined.

Definition sessions_order_desc (q : list SessionDoc) : list SessionDoc :=
  merge_sort newer_session_first q.

(** [arr.includes(x)] on an array of strings *)
Definition arr_includes (arr : list string) (x : string) : bool :=
  existsb (String.eqb x) arr.

(** The validator [v.id("users")] that both tables declare for [userId].
    An id that authentication returned is an id of the users table; the
    placeholder [DEV_USER_ID] is a string cast to [Id<"users">] and is not
    one. *)
Definition is_users_id (userId : UserId) : bool :=
  negb (String.eqb userId DEV_USER_ID).

(** The error of a document that does not fit the schema (the text is the
    database's). *)
Definition schema_error : string := "document does not match the schema".

(** [db.insert("clips", doc)] and [db.insert("sessions", doc)]: the document
    is checked against the schema and stored under the next id; a document
    that does not fit is refused and nothing is stored. *)
Definition insert_clip (doc : Clip.t) (db : Db) : outcome (Id * Db) :=
  if is_users_id (Clip.userId doc) then
    let id := next_id db in
    Ok (id, mkDb (<[id := doc]> (clips db)) (sessions db) (Pos.succ id))
  else Throw schema_error.

Definition insert_session (doc : Session.t) (db : Db) : outcome (Id * Db) :=
  if is_users_id (Session.userId doc) then
    let id := next_id db in
    Ok (id, mkDb (clips db) (<[id := doc]> (sessions db)) (Pos.succ id))
  else Throw schema_error.

(** ** Search ([search.ts]) *)

Module Search.

(** [.replace(/[^\w\s]/g, ' ')] *)
Definition replace_punct (s : string) : string :=
  JS.smap (λ c, if negb (JS.is_word c || JS.is_space c) then " "%char else c) s.

Definition tokenize (text : string) : list string :=
  List.filter (λ token, (0 <? String.length token)%nat)
    (JS.split_ws (replace_punct (JS.toLowerCase text))).

(** [x || ''] for an optional string field *)
Definition or_empty (x : option string) : string :=
  match x with
  | Some s => if JS.truthy_str s then s else ""
  | None => ""
  end.

Definition searchableFields (clip : Clip.t) : list string :=
  Clip.tags clip ++
  [ Clip.objectKey clip;
    or_empty (angle_str <$> Clip.angle clip);
    or_empty (apparatus_str <$> Clip.apparatus clip) ].

Definition matchesQuery (clip : Clip.t) (queryTokens : list string) : bool :=
  let searchText := JS.toLowerCase (JS.join " " (searchableFields clip)) in
  let searchTokens := tokenize searchText in
  forallb (λ queryToken,
    existsb (λ searchToken,
      JS.includes searchToken queryToken || JS.includes queryToken searchToken)
      searchTokens)
    queryTokens.

Record QueryResult : Type := mkQueryResult {
  results : list ClipDoc;
  cursor : option string;
  isDone : bool
}.

(** The array [matchingClips] of the handler. *)
Definition matchingClips (userId : UserId) (queryTokens : list string) (db : Db)
  : list ClipDoc :=
  let allClips := order_desc (by_user_and_created_at userId db) in
  List.filter (λ clip : ClipDoc, matchesQuery clip.2 queryTokens) allClips.

(** [args_cursor] is [None] for an absent or [null] cursor. *)
Definition query (auth : option UserId)
  (args_q : string) (args_limit : option JS.num) (args_cursor : option string)
  (db : Db) : QueryResult :=
  let userId := getCurrentUserId auth in
  let limit :=
    match args_limit with
    | Some l => if JS.truthy_num l then l else JS.Num 20
    | None => JS.Num 20
    end in
  if negb (JS.truthy_str (JS.trim args_q)) then mkQueryResult [] None true
  else
    let queryTokens := tokenize args_q in
    if (length queryTokens =? 0)%nat then mkQueryResult [] None true
    else
      let matching := matchingClips userId queryTokens db in
      let startIndex :=
        match args_cursor with
        | Some c =>
            (* [parseInt] does not throw: the [catch] branch is dead *)
            if JS.truthy_str c then JS.parseInt c else JS.Num 0
        | None => JS.Num 0
        end in
      let endIndex := JS.add startIndex limit in
      let page := JS.slice matching startIndex endIndex in
      let hasMore := JS.lt endIndex (JS.length_num matching) in
      mkQueryResult page
        (if hasMore then Some (JS.toString endIndex) else None)
        (negb hasMore).

End Search.

(** ** Clips ([api.clips]) *)

Module Clips.

Definition denied_msg : string := "Clip not found or access denied".

(** [!clip || clip.userId !== userId] *)
Definition not_mine (clip : option Clip.t) (userId : UserId) : bool :=
  match clip with
  | None => true
  | Some c => negb (String.eqb (Clip.userId c) userId)
  end.

(** [.unique()]: [null] for no document, the document when there is one, an
    error when there are several (the text of that error is the library's). *)
Definition unique {A} (docs : list A) : outcome (option A) :=
  match docs with
  | [] => Ok None
  | [d] => Ok (Some d)
  | _ => Throw "unique() query returned more than one result"
  end.

(** [presign] stands for the object store's URL signer. *)
Definition getPlaybackUrl (presign : string -> string) (auth : option UserId)
  (args_objectKey : string) (db : Db) : outcome string :=
  let userId := getCurrentUserId auth in
  match unique (filter (λ d : ClipDoc,
                  Clip.userId d.2 = userId ∧ Clip.objectKey d.2 = args_objectKey)
                  (map_to_list (clips db))) with
  | Throw msg => Throw msg
  | Ok None => Throw denied_msg
  | Ok (Some _) => Ok (presign args_objectKey)
  end.

Definition get (auth : option UserId) (args_id : Id) (db : Db) : outcome Clip.t :=
  let userId := getCurrentUserId auth in
  let clip := clips db !! args_id in
  if not_mine clip userId then Throw denied_msg
  else match clip with Some c => Ok c | None => Throw denied_msg end.

Module UpdateMetaArgs.
Record t : Type := mk {
  id : Id;
  tags : option (list string);
  angle : option Angle;
  apparatus : option Apparatus;
  favorite : option bool;
  sessionId : option Id
}.
End UpdateMetaArgs.

(** The object [updates]: a field is [None] when the key was never set. *)
Module Updates.
Record t : Type := mk {
  tags : option (list string);
  angle : option Angle;
  apparatus : option Apparatus;
  favorite : option bool;
  sessionId : option Id
}.
Definition empty : t := mk None None None None None.
Definition set_tags (v : list string) (u : t) : t :=
  mk (Some v) (angle u) (apparatus u) (favorite u) (sessionId u).
Definition set_angle (v : Angle) (u : t) : t :=
  mk (tags u) (Some v) (apparatus u) (favorite u) (sessionId u).
Definition set_apparatus (v : Apparatus) (u : t) : t :=
  mk (tags u) (angle u) (Some v) (favorite u) (sessionId u).
Definition set_favorite (v : bool) (u : t) : t :=
  mk (tags u) (angle u) (apparatus u) (Some v) (sessionId u).
Definition set_sessionId (v : Id) (u : t) : t :=
  mk (tags u) (angle u) (apparatus u) (favorite u) (Some v).
End Updates.

(** [if (x !== undefined) updates.f = x] *)
Definition if_defined {A} (x : option A) (set : A -> Updates.t -> Updates.t)
  (updates : Updates.t) : Updates.t :=
  match x with Some v => set v updates | None => updates end.

(** [db.patch(id, updates)]: the keys present in [updates] replace the
    document's, every other field stays. *)
Definition patch_clip (u : Updates.t) (c : Clip.t) : Clip.t :=
  Clip.mk (Clip.userId c) (Clip.objectKey c) (Clip.createdAt c) (Clip.bytes c)
    (Clip.durationMs c) (Clip.width c) (Clip.height c)
    (match Updates.tags u with Some v => v | None => Clip.tags c end)
    (match Updates.angle u with Some v => Some v | None => Clip.angle c end)
    (match Updates.apparatus u with Some v => Some v | None => Clip.apparatus c end)
    (match Updates.favorite u with Some v => Some v | None => Clip.favorite c end)
    (match Updates.sessionId u with Some v => Some v | None => Clip.sessionId c end).

Definition updateMeta (auth : option UserId) (args : UpdateMetaArgs.t) (db : Db)
  : outcome Success * Db :=
  let userId := getCurrentUserId auth in
  let clip := clips db !! UpdateMetaArgs.id args in
  if not_mine clip userId then (Throw denied_msg, db)
  else
    let updates := Updates.empty in
    let updates := if_defined (UpdateMetaArgs.tags args) Updates.set_tags updates in
    let updates := if_defined (UpdateMetaArgs.angle args) Updates.set_angle updates in
    let updates := if_defined (UpdateMetaArgs.apparatus args) Updates.set_apparatus updates in
    let updates := if_defined (UpdateMetaArgs.favorite args) Updates.set_favorite updates in
    let updates := if_defined (UpdateMetaArgs.sessionId args) Updates.set_sessionId updates in
    (Ok success,
     mkDb (alter (patch_clip updates) (UpdateMetaArgs.id args) (clips db))
       (sessions db) (next_id db)).

Definition deleteClip (auth : option UserId) (args_id : Id) (db : Db)
  : outcome Success * Db :=
  let userId := getCurrentUserId auth in
  let clip := clips db !! args_id in
  if not_mine clip userId then (Throw denied_msg, db)
  else (Ok success, mkDb (delete args_id (clips db)) (sessions db) (next_id db)).

Module PaginationOpts.
Record t : Type := mk {
  numItems : JS.num;
  cursor : option string
}.
End PaginationOpts.

Module ListArgs.
Record t : Type := mk {
  paginationOpts : PaginationOpts.t;
  tags : option (list string);
  angle : option Angle;
  apparatus : option Apparatus;
  favorite : option bool;
  sessionId : option Id;
  dateRange : option (Z * Z)
}.
End ListArgs.

Record ListResult : Type := mkListResult {
  page : list ClipDoc;
  isDone : bool;
  continueCursor : option string
}.

(** The array [results] of [list] when the handler reaches "Manual
    pagination". *)
Definition results (auth : option UserId) (args : ListArgs.t) (db : Db)
  : list ClipDoc :=
  let userId := getCurrentUserId auth in
  let query := by_user_and_created_at userId db in
  let query :=
    match ListArgs.dateRange args with
    | Some (start, stop) =>
        filter (λ d : ClipDoc,
          start <= Clip.createdAt d.2 ∧ Clip.createdAt d.2 <= stop) query
    | None => query
    end in
  let results := order_desc query in
  let results :=
    match ListArgs.tags args with
    | Some tags =>
        if (0 <? length tags)%nat
        then List.filter (λ clip : ClipDoc,
               existsb (λ tag, arr_includes (Clip.tags clip.2) tag) tags) results
        else results
    | None => results
    end in
  let results :=
    match ListArgs.angle args with
    | Some a => List.filter (λ clip : ClipDoc, bool_decide (Clip.angle clip.2 = Some a)) results
    | None => results
    end in
  let results :=
    match ListArgs.apparatus args with
    | Some a => List.filter (λ clip : ClipDoc, bool_decide (Clip.apparatus clip.2 = Some a)) results
    | None => results
    end in
  let results :=
    match ListArgs.favorite args with
    | Some f => List.filter (λ clip : ClipDoc, bool_decide (Clip.favorite clip.2 = Some f)) results
    | None => results
    end in
  let results :=
    match ListArgs.sessionId args with
    | Some s => List.filter (λ clip : ClipDoc, bool_decide (Clip.sessionId clip.2 = Some s)) results
    | None => results
    end in
  results.

Definition list (auth : option UserId) (args : ListArgs.t) (db : Db) : ListResult :=
  let results := results auth args db in
  let cursor := PaginationOpts.cursor (ListArgs.paginationOpts args) in
  let startIndex :=
    match cursor with
    | Some c => if JS.truthy_str c then JS.parseInt c else JS.Num 0
    | None => JS.Num 0
    end in
  let endIndex := JS.add startIndex (PaginationOpts.numItems (ListArgs.paginationOpts args)) in
  let page := JS.slice results startIndex endIndex in
  let hasMore := JS.lt endIndex (JS.length_num results) in
  mkListResult page (negb hasMore)
    (if hasMore then Some (JS.toString endIndex) else None).

End Clips.

(** ** Sessions ([sessions.ts]) *)

Module Sessions.

Definition denied_msg : string := "Session not found or access denied".

(** [!session || session.userId !== userId] *)
Definition not_mine (session : option Session.t) (userId : UserId) : bool :=
  match session with
  | None => true
  | Some s => negb (String.eqb (Session.userId s) userId)
  end.

(** [now] is the value of [Date.now()]. *)
Definition create (auth : option UserId) (args_name : string) (now : Z) (db : Db)
  : outcome Id * Db :=
  let userId := getCurrentUserId auth in
  match insert_session (Session.mk userId args_name now) db with
  | Ok (sessionId, db') => (Ok sessionId, db')
  | Throw msg => (Throw msg, db)
  end.

Definition rename (auth : option UserId) (args_id : Id) (args_name : string) (db : Db)
  : outcome Success * Db :=
  let userId := getCurrentUserId auth in
  let session := sessions db !! args_id in
  if not_mine session userId then (Throw denied_msg, db)
  else
    (Ok success,
     mkDb (clips db)
       (alter (λ s, Session.mk (Session.userId s) args_name (Session.createdAt s))
          args_id (sessions db))
       (next_id db)).

Definition deleteSession (auth : option UserId) (args_id : Id) (db : Db)
  : outcome Success * Db :=
  let userId := getCurrentUserId auth in
  let session := sessions db !! args_id in
  if not_mine session userId then (Throw denied_msg, db)
  else (Ok success, mkDb (clips db) (delete args_id (sessions db)) (next_id db)).

Definition list (auth : option UserId) (db : Db) : Datatypes.list SessionDoc :=
  let userId := getCurrentUserId auth in
  sessions_order_desc (sessions_by_user userId db).

End Sessions.

(** ** Upload ([api.upload]) *)

Module Upload.

Definition MAX_FILE_SIZE : Z := 500 * 1024 * 1024.

Definition ALLOWED_MIME_TYPES : list string :=
  [ "video/mp4"; "video/quicktime"; "video/x-matroska";
    "video/webm"; "video/avi"; "video/mov" ].

Record UploadTicket : Type := mkUploadTicket {
  ticket_objectKey : string;
  putUrl : string
}.

(** [now] is [Date.now()], [random] the string
    [Math.random().toString(36).substring(2, 15)], [presign] the object
    store's URL signer.  Nothing is written to the database. *)
Definition requestUpload (presign : string -> string) (auth : option UserId)
  (args_contentType args_ext : string) (args_sizeBytes : JS.num)
  (now : Z) (random : string) (db : Db) : outcome UploadTicket * Db :=
  let userId := getCurrentUserId auth in
  if JS.lt (JS.Num MAX_FILE_SIZE) args_sizeBytes then
    (Throw ("File size " ++ JS.toString args_sizeBytes
            ++ " bytes exceeds maximum allowed size of "
            ++ JS.toString (JS.Num MAX_FILE_SIZE) ++ " bytes ("
            ++ JS.toString (JS.Num (MAX_FILE_SIZE / 1024 / 1024)) ++ "MB)")%string, db)
  else if negb (arr_includes ALLOWED_MIME_TYPES args_contentType) then
    (Throw ("Content type " ++ args_contentType
            ++ " is not allowed. Supported types: "
            ++ JS.join ", " ALLOWED_MIME_TYPES)%string, db)
  else
    let objectKey :=
      ("clips/" ++ userId ++ "/" ++ JS.toString (JS.Num now) ++ "-" ++ random
       ++ "." ++ args_ext)%string in
    (Ok (mkUploadTicket objectKey (presign objectKey)), db).

Module FinalizeArgs.
Record t : Type := mk {
  objectKey : string;
  bytes : Z;
  durationMs : option Z;
  width : option Z;
  height : option Z
}.
End FinalizeArgs.

Definition finalizeUpload (auth : option UserId) (args : FinalizeArgs.t) (now : Z)
  (db : Db) : outcome Id * Db :=
  let userId := getCurrentUserId auth in
  if MAX_FILE_SIZE <? FinalizeArgs.bytes args then
    (Throw ("File size " ++ JS.toString (JS.Num (FinalizeArgs.bytes args))
            ++ " bytes exceeds maximum allowed size of "
            ++ JS.toString (JS.Num MAX_FILE_SIZE) ++ " bytes")%string, db)
  else
    match
      insert_clip
        (Clip.mk userId (FinalizeArgs.objectKey args) now (FinalizeArgs.bytes args)
           (FinalizeArgs.durationMs args) (FinalizeArgs.width args)
           (FinalizeArgs.height args) [] None None (Some false) None) db
    with
    | Ok (clipId, db') => (Ok clipId, db')
    | Throw msg => (Throw msg, db)
    end.

Record UploadLimits : Type := mkUploadLimits {
  maxFileSizeBytes : Z;
  maxFileSizeMB : Z;
  allowedMimeTypes : list string
}.

(** [Math.round(MAX_FILE_SIZE / 1024 / 1024)] is an exact quotient here. *)
Definition getUploadLimits : UploadLimits :=
  mkUploadLimits MAX_FILE_SIZE (MAX_FILE_SIZE / 1024 / 1024) ALLOWED_MIME_TYPES.

End Upload.

(** ** A client that pages through a result *)

(** What one request gives back: the page, [isDone] and the next cursor. *)
Abbreviation Fetched A := (list A * bool * option string)%type (only parsing).

(** Start from [cursor], request a page, and go on with the cursor it
    returns until a page says [isDone]; the pages are concatenated.  [fuel]
    bounds the number of requests, [None] means it ran out. *)
Fixpoint follow {A} (fetch : option string -> Fetched A) (fuel : nat)
  (cursor : option string) : option (list A) :=
  match fuel with
  | O => None
  | S fuel' =>
      let '(page, done, next) := fetch cursor in
      if done then Some page
      else (λ rest, (page ++ rest)%list) <$> follow fetch fuel' next
  end.

Definition with_cursor (args : Clips.ListArgs.t) (cursor : option string)
  : Clips.ListArgs.t :=
  Clips.ListArgs.mk
    (Clips.PaginationOpts.mk
       (Clips.PaginationOpts.numItems (Clips.ListArgs.paginationOpts args)) cursor)
    (Clips.ListArgs.tags args) (Clips.ListArgs.angle args)
    (Clips.ListArgs.apparatus args) (Clips.ListArgs.favorite args)
    (Clips.ListArgs.sessionId args) (Clips.ListArgs.dateRange args).

Definition fetch_list (auth : option UserId) (args : Clips.ListArgs.t) (db : Db)
  (cursor : option string) : Fetched ClipDoc :=
  let r := Clips.list auth (with_cursor args cursor) db in
  (Clips.page r, Clips.isDone r, Clips.continueCursor r).

Definition fetch_search (auth : option UserId) (q : string) (limit : option JS.num)
  (db : Db) (cursor : option string) : Fetched ClipDoc :=
  let r := Search.query auth q limit cursor db in
  (Search.results r, Search.isDone r, Search.cursor r).

(** ** Sequences of calls *)

Inductive Call : Type :=
  | CallRequestUpload (auth : option UserId) (contentType ext : string)
      (sizeBytes : JS.num) (now : Z) (random : string)
  | CallFinalizeUpload (auth : option UserId) (args : Upload.FinalizeArgs.t) (now : Z)
  | CallUpdateMeta (auth : option UserId) (args : Clips.UpdateMetaArgs.t)
  | CallDeleteClip (auth : option UserId) (id : Id)
  | CallCreateSession (auth : option UserId) (name : string) (now : Z)
  | CallRenameSession (auth : option UserId) (id : Id) (name : string)
  | CallDeleteSession (auth : option UserId) (id : Id).

(** The database after one call (the queries write nothing). *)
Definition step (db : Db) (c : Call) : Db :=
  match c with
  | CallRequestUpload auth contentType ext sizeBytes now random =>
      (Upload.requestUpload (λ key, key) auth contentType ext sizeBytes now random db).2
  | CallFinalizeUpload auth args now => (Upload.finalizeUpload auth args now db).2
  | CallUpdateMeta auth args => (Clips.updateMeta auth args db).2
  | CallDeleteClip auth id => (Clips.deleteClip auth id db).2
  | CallCreateSession auth name now => (Sessions.create auth name now db).2
  | CallRenameSession auth id name => (Sessions.rename auth id name db).2
  | CallDeleteSession auth id => (Sessions.deleteSession auth id db).2
  end.

Definition run (calls : list Call) (db : Db) : Db := foldl step db calls.

Definition reachable (db : Db) : Prop := ∃ calls, run calls empty_db = db.

(** No two clip documents hold the same object key. *)
Definition keys_unique (db : Db) : Prop :=
  ∀ i j ci cj, clips db !! i = Some ci → clips db !! j = Some cj →
    Clip.objectKey ci = Clip.objectKey cj → i = j.

(** ** The words of the specification *)

Module Spec.

(** [t] occurs inside [s]. *)
Definition substring (t s : string) : Prop :=
  ∃ before after, s = (before ++ t ++ after)%string.

(** Section 4.1 with "letter" narrowed to the letters of [\w], [A-Z] and
    [a-z]: replace what is not such a letter, a digit or an underscore by a
    space. *)
Definition blank_non_word (s : string) : string :=
  JS.smap (λ c, if JS.is_letter c || JS.is_digit c || JS.is_underscore c
                then c else " "%char) s.

(** Section 4.1: split on runs of white space and drop the empty tokens.
    [cur] is the token being read. *)
Fixpoint words_from (cur : string) (s : string) : list string :=
  match s with
  | EmptyString => if JS.is_empty cur then [] else [cur]
  | String c r =>
      if JS.is_space c
      then if JS.is_empty cur then words_from "" r else cur :: words_from "" r
      else words_from (cur ++ String c "") r
  end.

Definition tokenize (text : string) : list string :=
  words_from "" (blank_non_word (JS.toLowerCase text)).




(** Every character satisfies [p]. *)
Fixpoint all_chars (p : ascii -> bool) (s : string) : bool :=
  match s with
  | EmptyString => true
  | String c r => p c && all_chars p r
  end.

(** Section 4.3, steps 3 and 4. *)
Definition searchText (clip : Clip.t) : string :=
  JS.toLowerCase
    (JS.join " "
       (Clip.tags clip ++
        [ Clip.objectKey clip;
          from_option angle_str "" (Clip.angle clip);
          from_option apparatus_str "" (Clip.apparatus clip) ])).

Definition matches (queryText : string) (clip : Clip.t) : Prop :=
  ∀ t, t ∈ Search.tokenize queryText →
    ∃ s, s ∈ Search.tokenize (searchText clip) ∧ (substring t s ∨ substring s t).

(** Section 4.4: the offset a cursor stands for. *)
Definition cursor_offset (cursor : option string) (o : nat) : Prop :=
  match cursor with
  | None => o = 0%nat
  | Some c => JS.parseInt c = JS.Num (Z.of_nat o)
  end.

Definition decimal (n : nat) : string :=
  NilZero.string_of_uint (N.to_uint (N.of_nat n)).

(** Section 4.4: the page at offset [o] of size [n], [isDone], and the next
    cursor. *)
Definition window {A} (l : list A) (o n : nat) : Fetched A :=
  (take n (drop o l),
   bool_decide (length l ≤ o + n)%nat,
   if bool_decide (length l ≤ o + n)%nat then None else Some (decimal (o + n))).

(** The sequence that [searchClips] paginates. *)
Definition search_sequence (auth : option UserId) (q : string) (db : Db)
  : list ClipDoc :=
  match Search.tokenize q with
  | [] => []
  | queryTokens => Search.matchingClips (getCurrentUserId auth) queryTokens db
  end.

(** Section 4.2, as the claim words it: each supplied field must hold, a
    supplied tag set must meet the clip's tags. *)
Record claimed_filter (args : Clips.ListArgs.t) (clip : Clip.t) : Prop := {
  claimed_tags : ∀ ts, Clips.ListArgs.tags args = Some ts →
    ∃ tag, tag ∈ ts ∧ tag ∈ Clip.tags clip;
  claimed_angle : ∀ a, Clips.ListArgs.angle args = Some a → Clip.angle clip = Some a;
  claimed_apparatus : ∀ a, Clips.ListArgs.apparatus args = Some a →
    Clip.apparatus clip = Some a;
  claimed_favorite : ∀ f, Clips.ListArgs.favorite args = Some f →
    Clip.favorite clip = Some f;
  claimed_sessionId : ∀ s, Clips.ListArgs.sessionId args = Some s →
    Clip.sessionId clip = Some s;
  claimed_dateRange : ∀ start stop, Clips.ListArgs.dateRange args = Some (start, stop) →
    start <= Clip.createdAt clip <= stop
}.

(** The same with the guard of the source: a supplied tag list constrains
    only when it is not empty. *)
Record passes_filter (args : Clips.ListArgs.t) (clip : Clip.t) : Prop := {
  passes_tags : ∀ ts, Clips.ListArgs.tags args = Some ts → ts ≠ [] →
    ∃ tag, tag ∈ ts ∧ tag ∈ Clip.tags clip;
  passes_angle : ∀ a, Clips.ListArgs.angle args = Some a → Clip.angle clip = Some a;
  passes_apparatus : ∀ a, Clips.ListArgs.apparatus args = Some a →
    Clip.apparatus clip = Some a;
  passes_favorite : ∀ f, Clips.ListArgs.favorite args = Some f →
    Clip.favorite clip = Some f;
  passes_sessionId : ∀ s, Clips.ListArgs.sessionId args = Some s →
    Clip.sessionId clip = Some s;
  passes_dateRange : ∀ start stop, Clips.ListArgs.dateRange args = Some (start, stop) →
    start <= Clip.createdAt clip <= stop
}.

(** The filter with no field supplied. *)
Definition no_filters (opts : Clips.PaginationOpts.t) : Clips.ListArgs.t :=
  Clips.ListArgs.mk opts None None None None None None.

End Spec.

(** ** Sample data *)

Module Sample.


Definition alice : option UserId := Some "alice".
Definition bob : option UserId := Some "bob".

Definition upload (key : string) : Upload.FinalizeArgs.t :=
  Upload.FinalizeArgs.mk key 1024 None None None.

Definition retag (id : Id) (tags : list string) : Clips.UpdateMetaArgs.t :=
  Clips.UpdateMetaArgs.mk id (Some tags) None None None None.

Definition first_page (n : Z) : Clips.PaginationOpts.t :=
  Clips.PaginationOpts.mk (JS.Num n) None.

(** Alice uploads a clip and tags it. *)
Definition floor_key : string := "videos/handstand.mp4".

Definition floor_db : Db :=
  run [ CallFinalizeUpload alice (upload floor_key) 100;
        CallUpdateMeta alice (retag 1 ["floor"]) ] empty_db.

Definition floor_clip : Clip.t :=
  Clip.mk "alice" floor_key 100 1024 None None None ["floor"] None None
    (Some false) None.

(** Two clips under keys of the shape [requestUpload] hands out. *)
Definition handstand_clip : Clip.t :=
  Clip.mk "alice" "clips/alice/17-k3.mp4" 100 1024 None None None
    ["handstand"] None None (Some false) None.

Definition rings_floor_clip : Clip.t :=
  Clip.mk "alice" "clips/alice/17-k3.mp4" 100 1024 None None None
    ["floor"] (Some front) (Some rings) (Some false) None.

(** The same object key finalized twice, by two users. *)
Definition shared_key : string := "clips/alice/1700000000000-k3x9q2.mp4".

Definition twice_db : Db :=
  run [ CallFinalizeUpload alice (upload shared_key) 100;
        CallFinalizeUpload bob (upload shared_key) 200 ] empty_db.

(** A key finalized again after its clip was deleted. *)
Definition reuse_calls : list Call :=
  [ CallFinalizeUpload alice (upload shared_key) 100;
    CallDeleteClip alice 1;
    CallFinalizeUpload alice (upload shared_key) 300 ].

(** Alice creates a session, uploads a clip, and files the clip under the
    session, with an angle. *)
Definition monday : Session.t := Session.mk "alice" "Monday" 50.

Definition session_db : Db :=
  run [ CallCreateSession alice "Monday" 50;
        CallFinalizeUpload alice (upload shared_key) 100;
        CallUpdateMeta alice
          (Clips.UpdateMetaArgs.mk 2 None (Some side) None None (Some 1%positive)) ]
      empty_db.

Definition filed_clip : Clip.t :=
  Clip.mk "alice" shared_key 100 1024 None None None [] (Some side) None
    (Some false) (Some 1%positive).

(** Three uploads of Alice, one of Bob in between. *)
Definition three_db : Db :=
  run [ CallFinalizeUpload alice (upload "clips/alice/100-a1.mp4") 100;
        CallFinalizeUpload bob (upload "clips/bob/150-b1.mp4") 150;
        CallFinalizeUpload alice (upload "clips/alice/200-a2.mp4") 200;
        CallFinalizeUpload alice (upload "clips/alice/300-a3.mp4") 300 ]
      empty_db.

Definition pages_of (n : Z) : Clips.ListArgs.t :=
  Clips.ListArgs.mk (Clips.PaginationOpts.mk (JS.Num n) None)
    None None None None None None.

(** A clip document without a stored [favorite], which the schema allows. *)
Definition unrated_clip : Clip.t :=
  Clip.mk "alice" "clips/alice/1-a.mp4" 100 1024 None None None [] None None
    None None.

Definition unrated_db : Db := mkDb {[ 1%positive := unrated_clip ]} ∅ 2%positive.

Definition only_favorite (f : bool) : Clips.ListArgs.t :=
  Clips.ListArgs.mk (first_page 10) None None None (Some f) None None.

Definition empty_tag_filter : Clips.ListArgs.t :=
  Clips.ListArgs.mk (first_page 10) (Some []) None None None None None.

End Sample.

(** ** Further vocabulary *)

Module Shape.

(** The characters a token is made of: digits, lower-case letters, the
    underscore. *)
Definition is_token_char (c : ascii) : bool :=
  JS.is_digit c || JS.between 97 122 (JS.code c) || JS.is_underscore c.

(** A non-empty string of token characters. *)
Definition is_token (s : string) : bool :=
  negb (JS.is_empty s) && Spec.all_chars is_token_char s.

(** The limit [query] works with: [args.limit || 20]. *)
Definition effective_limit (limit : option JS.num) : JS.num :=
  match limit with
  | Some l => if JS.truthy_num l then l else JS.Num 20
  | None => JS.Num 20
  end.

(** The filter object that supplies [favorite] alone, or [tags] alone. *)
Definition favorite_only (opts : Clips.PaginationOpts.t) (f : bool) : Clips.ListArgs.t :=
  Clips.ListArgs.mk opts None None None (Some f) None None.

Definition tags_only (opts : Clips.PaginationOpts.t) (ts : list string)
  : Clips.ListArgs.t :=
  Clips.ListArgs.mk opts (Some ts) None None None None None.

(** The arguments of [updateMeta] that supply nothing but the id. *)
Definition touch (id : Id) : Clips.UpdateMetaArgs.t :=
  Clips.UpdateMetaArgs.mk id None None None None None.

(** The document [finalizeUpload] inserts. *)
Definition fresh_clip (auth : option UserId) (args : Upload.FinalizeArgs.t) (now : Z)
  : Clip.t :=
  Clip.mk (getCurrentUserId auth) (Upload.FinalizeArgs.objectKey args) now
    (Upload.FinalizeArgs.bytes args) (Upload.FinalizeArgs.durationMs args)
    (Upload.FinalizeArgs.width args) (Upload.FinalizeArgs.height args)
    [] None None (Some false) None.

(** The object [updates] that [updateMeta] builds. *)
Definition updates_of (args : Clips.UpdateMetaArgs.t) : Clips.Updates.t :=
  Clips.Updates.mk (Clips.UpdateMetaArgs.tags args) (Clips.UpdateMetaArgs.angle args)
    (Clips.UpdateMetaArgs.apparatus args) (Clips.UpdateMetaArgs.favorite args)
    (Clips.UpdateMetaArgs.sessionId args).

(** A size that the check [sizeBytes > MAX_FILE_SIZE] lets through: a
    number that is not greater than the limit, which [NaN] is not either. *)
Definition size_passes (size : JS.num) : Prop :=
  match size with
  | JS.NaN => True
  | JS.Num n => n <= Upload.maxFileSizeBytes Upload.getUploadLimits
  end.

(** The calls that do not write to the clips table. *)
Definition leaves_clips (c : Call) : bool :=
  match c with
  | CallRequestUpload _ _ _ _ _ _ => true
  | CallCreateSession _ _ _ => true
  | CallRenameSession _ _ _ => true
  | CallDeleteSession _ _ => true
  | _ => false
  end.

End Shape.

(** * Properties *)

(** ** Strings *)

Section string_facts.

Lemma string_app_cons c (a b : string) :
  (String c a ++ b)%string = String c (a ++ b).
Proof. reflexivity. Qed.

Lemma string_app_nil_l (a : string) : ("" ++ a)%string = a.
Proof. reflexivity. Qed.

Lemma smap_app f (a b : string) :
  JS.smap f (a ++ b)%string = (JS.smap f a ++ JS.smap f b)%string.
Proof.
  induction a as [|c a IH]; [done|].
  rewrite string_app_cons. simpl. by rewrite string_app_cons, IH.
Qed.

Lemma smap_smap f g (s : string) :
  JS.smap f (JS.smap g s) = JS.smap (λ c, f (g c)) s.
Proof. induction s as [|c s IH]; simpl; [done | by rewrite IH]. Qed.

Lemma smap_ext f g (s : string) :
  (∀ c, f c = g c) → JS.smap f s = JS.smap g s.
Proof. intros E. induction s as [|c s IH]; simpl; [done | by rewrite E, IH]. Qed.

Lemma string_app_assoc (a b c : string) :
  ((a ++ b) ++ c = a ++ (b ++ c))%string.
Proof. induction a as [|x a IH]; [done | by rewrite !string_app_cons, IH]. Qed.

Lemma string_app_nil_r (a : string) : (a ++ "")%string = a.
Proof. induction a as [|x a IH]; [done | by rewrite string_app_cons, IH]. Qed.

Lemma is_empty_true (s : string) : JS.is_empty s = true ↔ s = "".
Proof. destruct s; simpl; split; congruence. Qed.

Lemma is_empty_length (s : string) :
  (0 <? String.length s)%nat = negb (JS.is_empty s).
Proof. by destruct s. Qed.

Lemma is_empty_snoc (s : string) c : JS.is_empty (s ++ String c "") = false.
Proof. by destruct s. Qed.

(** The character classes, checked on the 256 code points. *)
Lemma word_not_space c : JS.is_word c = true → JS.is_space c = false.
Proof. destruct c as [[] [] [] [] [] [] [] []]; by vm_compute. Qed.

Lemma lower_char_word c : JS.is_word (JS.lower_char c) = JS.is_word c.
Proof. destruct c as [[] [] [] [] [] [] [] []]; by vm_compute. Qed.

Lemma lower_char_space c : JS.is_space (JS.lower_char c) = JS.is_space c.
Proof. destruct c as [[] [] [] [] [] [] [] []]; by vm_compute. Qed.

Lemma lower_char_idem c : JS.lower_char (JS.lower_char c) = JS.lower_char c.
Proof. destruct c as [[] [] [] [] [] [] [] []]; by vm_compute. Qed.

Lemma toLowerCase_idem s : JS.toLowerCase (JS.toLowerCase s) = JS.toLowerCase s.
Proof.
  unfold JS.toLowerCase. rewrite smap_smap. apply smap_ext, lower_char_idem.
Qed.

Lemma toLowerCase_app a b :
  JS.toLowerCase (a ++ b)%string = (JS.toLowerCase a ++ JS.toLowerCase b)%string.
Proof. apply smap_app. Qed.

End string_facts.

(** ** The tokenizer *)

Section tokenizer.

(** Dropping the empty pieces of [split] leaves the words. *)
Lemma filter_split_words s : ∀ cur in_run,
  (in_run = true → cur = "") →
  List.filter (λ token, (0 <? String.length token)%nat) (JS.split_ws_from cur in_run s)
  = Spec.words_from cur s.
Proof.
  induction s as [|c r IH]; intros cur in_run Hrun; simpl.
  - rewrite is_empty_length. by destruct (JS.is_empty cur).
  - destruct (JS.is_space c).
    + destruct in_run.
      * rewrite (Hrun eq_refl). simpl. by apply IH.
      * simpl. rewrite is_empty_length.
        destruct (JS.is_empty cur); simpl; by rewrite IH.
    + by apply IH.
Qed.

(** White space that [replace] leaves in place separates words just as the
    space the specification puts there. *)
Lemma words_blank_agree s : ∀ cur,
  Spec.words_from cur (Search.replace_punct s)
  = Spec.words_from cur (Spec.blank_non_word s).
Proof.
  induction s as [|c r IH]; intros cur; [done|].
  unfold Search.replace_punct, Spec.blank_non_word in *. simpl.
  change (JS.is_letter c || JS.is_digit c || JS.is_underscore c) with (JS.is_word c).
  destruct (JS.is_word c) eqn:Hw; simpl.
  - rewrite (word_not_space c Hw). apply IH.
  - destruct (JS.is_space c) eqn:Hs; simpl.
    + rewrite Hs. change (JS.is_space " ") with true. cbv iota.
      destruct (JS.is_empty cur); by rewrite IH.
    + change (JS.is_space " ") with true. cbv iota.
      destruct (JS.is_empty cur); by rewrite IH.
Qed.

Lemma tokenize_words text :
  Search.tokenize text = Spec.words_from "" (Search.replace_punct (JS.toLowerCase text)).
Proof. unfold Search.tokenize, JS.split_ws. by apply filter_split_words. Qed.

Lemma tokenize_spec text : Search.tokenize text = Spec.tokenize text.
Proof. rewrite tokenize_words. apply words_blank_agree. Qed.

(** A text without any word character has no token. *)
Lemma words_from_no_word s :
  Spec.all_chars (λ c, negb (JS.is_word c)) s = true →
  Spec.words_from "" (Spec.blank_non_word s) = [].
Proof.
  induction s as [|c r IH]; simpl; [done|].
  change (JS.is_letter c || JS.is_digit c || JS.is_underscore c) with (JS.is_word c).
  intros [Hc Hr]%andb_prop. apply negb_true_iff in Hc. rewrite Hc.
  change (JS.is_space " ") with true. simpl. by apply IH.
Qed.

Lemma all_chars_lower p s :
  (∀ c, p (JS.lower_char c) = p c) →
  Spec.all_chars p (JS.toLowerCase s) = Spec.all_chars p s.
Proof.
  intros E. unfold JS.toLowerCase.
  induction s as [|c r IH]; simpl; [done | by rewrite E, IH].
Qed.

Lemma tokenize_no_word s :
  Spec.all_chars (λ c, negb (JS.is_word c)) s = true → Search.tokenize s = [].
Proof.
  intros H. rewrite tokenize_spec. apply words_from_no_word.
  rewrite all_chars_lower; [done|]. intros c. by rewrite lower_char_word.
Qed.

End tokenizer.




(** ** Search: tokens of the searchable text, containment *)

Section search_facts.

Lemma words_from_sep a : ∀ cur b,
  Spec.words_from cur (a ++ String " " b)
  = (Spec.words_from cur a ++ Spec.words_from "" b)%list.
Proof.
  induction a as [|c a IH]; intros cur b.
  - rewrite string_app_nil_l. simpl. change (JS.is_space " ") with true.
    cbv iota. by destruct (JS.is_empty cur).
  - rewrite string_app_cons. simpl. destruct (JS.is_space c).
    + destruct (JS.is_empty cur); by rewrite IH.
    + by rewrite IH.
Qed.

Lemma replace_punct_sep a b :
  Search.replace_punct (a ++ " " ++ b)
  = (Search.replace_punct a ++ String " " (Search.replace_punct b))%string.
Proof. unfold Search.replace_punct. by rewrite smap_app. Qed.

(** The tokens of two texts joined by a space are those of the first followed
    by those of the second. *)
Lemma tokenize_sep a b :
  Search.tokenize (a ++ " " ++ b) = (Search.tokenize a ++ Search.tokenize b)%list.
Proof.
  rewrite !tokenize_words, toLowerCase_app.
  change (JS.toLowerCase (" " ++ b)) with (" " ++ JS.toLowerCase b)%string.
  by rewrite replace_punct_sep, words_from_sep.
Qed.

Lemma tokenize_lower s : Search.tokenize (JS.toLowerCase s) = Search.tokenize s.
Proof. by rewrite !tokenize_words, toLowerCase_idem. Qed.

Lemma tokenize_join fields :
  Search.tokenize (JS.join " " fields) = concat (Search.tokenize <$> fields).
Proof.
  induction fields as [|p [|q rest] IH].
  - reflexivity.
  - simpl. by rewrite app_nil_r.
  - change (JS.join " " (p :: q :: rest))
      with (p ++ " " ++ JS.join " " (q :: rest))%string.
    rewrite tokenize_sep, IH. reflexivity.
Qed.

(** The search tokens of a clip, field by field. *)
Lemma searchTokens_fields clip :
  Search.tokenize (JS.toLowerCase (JS.join " " (Search.searchableFields clip)))
  = concat (Search.tokenize <$> Search.searchableFields clip).
Proof. by rewrite tokenize_lower, tokenize_join. Qed.

Lemma searchableFields_spec clip :
  JS.toLowerCase (JS.join " " (Search.searchableFields clip)) = Spec.searchText clip.
Proof.
  unfold Spec.searchText, Search.searchableFields.
  by destruct (Clip.angle clip) as [[]|], (Clip.apparatus clip) as [[]|].
Qed.

Lemma starts_with_spec p : ∀ s,
  JS.starts_with p s = true ↔ ∃ r, s = (p ++ r)%string.
Proof.
  induction p as [|a p IH]; intros s; simpl.
  - split; [intros _; by exists s | done].
  - destruct s as [|b s].
    + split; [done | intros [r Hr]; by rewrite string_app_cons in Hr].
    + destruct (Ascii.eqb_spec a b) as [->|Hne].
      * rewrite IH. split; intros [r Hr]; exists r.
        -- by rewrite string_app_cons, Hr.
        -- rewrite string_app_cons in Hr. congruence.
      * split; [done | intros [r Hr]]. rewrite string_app_cons in Hr. congruence.
Qed.

(** [includes] decides [Spec.substring]. *)
Lemma includes_spec s : ∀ t, JS.includes s t = true ↔ Spec.substring t s.
Proof.
  induction s as [|c s IH]; intros t; simpl.
  - rewrite orb_false_r, starts_with_spec. split.
    + intros [r Hr]. by exists ""%string, r.
    + intros ([|x before] & after & H).
      * by exists after.
      * by rewrite string_app_cons in H.
  - rewrite orb_true_iff, starts_with_spec, IH. split.
    + intros [[r Hr] | (before & after & H)].
      * by exists ""%string, r.
      * exists (String c before), after. by rewrite string_app_cons, H.
    + intros ([|x before] & after & H).
      * left. by exists after.
      * right. rewrite string_app_cons in H. exists before, after. congruence.
Qed.

Lemma matchesQuery_spec clip q :
  Search.matchesQuery clip (Search.tokenize q) = true ↔ Spec.matches q clip.
Proof.
  unfold Search.matchesQuery, Spec.matches.
  rewrite searchableFields_spec, forallb_forall. split.
  - intros H t Ht%list_elem_of_In. apply H in Ht.
    apply existsb_exists in Ht as (s & Hs%list_elem_of_In & Hst).
    exists s. split; [done|].
    apply orb_true_iff in Hst as [Hst|Hst]; apply includes_spec in Hst; auto.
  - intros H t Ht%list_elem_of_In. destruct (H t Ht) as (s & Hs & Hst).
    apply existsb_exists. exists s. split; [by apply list_elem_of_In|].
    apply orb_true_iff. destruct Hst as [Hst|Hst]; apply includes_spec in Hst; auto.
Qed.

End search_facts.

(** ** Index scans *)

Section scans.

#[local] Instance newer_first_total : Total newer_first.
Proof. intros a b. unfold newer_first. lia. Qed.

#[local] Instance newer_first_trans : Transitive newer_first.
Proof. intros a b c. unfold newer_first. lia. Qed.

Lemma elem_of_by_user (d : ClipDoc) userId db :
  d ∈ by_user_and_created_at userId db
  ↔ clips db !! d.1 = Some d.2 ∧ Clip.userId d.2 = userId.
Proof.
  unfold by_user_and_created_at.
  rewrite list_elem_of_filter, elem_of_map_to_list'. tauto.
Qed.

Lemma elem_of_order_desc (d : ClipDoc) q : d ∈ order_desc q ↔ d ∈ q.
Proof. unfold order_desc. by rewrite merge_sort_Permutation. Qed.

Lemma order_desc_sorted q : StronglySorted newer_first (order_desc q).
Proof. apply StronglySorted_merge_sort; apply _. Qed.

Lemma elem_of_js_filter {A} (f : A → bool) l x :
  x ∈ List.filter f l ↔ x ∈ l ∧ f x = true.
Proof. by rewrite !list_elem_of_In, filter_In. Qed.

Lemma js_filter_sorted {A} (R : relation A) (f : A → bool) l :
  StronglySorted R l → StronglySorted R (List.filter f l).
Proof.
  induction 1 as [|x l Hl IH Hx]; simpl; [constructor|].
  destruct (f x); [|done]. constructor; [done|].
  apply Forall_forall. intros y [Hy _]%elem_of_js_filter.
  by eapply Forall_forall in Hx.
Qed.

Lemma elem_of_matchingClips (d : ClipDoc) userId queryTokens db :
  d ∈ Search.matchingClips userId queryTokens db
  ↔ (clips db !! d.1 = Some d.2 ∧ Clip.userId d.2 = userId)
    ∧ Search.matchesQuery d.2 queryTokens = true.
Proof.
  unfold Search.matchingClips.
  by rewrite elem_of_js_filter, elem_of_order_desc, elem_of_by_user.
Qed.

End scans.

(** ** Cursors: printing an offset and reading it back *)

Section cursors.

Lemma parse_digits_step acc c r d :
  JS.digit_value c = Some d →
  JS.parse_digits acc (String c r) = JS.parse_digits (Some (10 * default 0 acc + d)) r.
Proof. simpl. by intros ->. Qed.

Ltac read_digit :=
  match goal with
  | |- JS.parse_digits ?acc (String ?c ?r) = _ =>
      let v := eval vm_compute in (JS.digit_value c) in
      match v with
      | Some ?d => rewrite (parse_digits_step acc c r d eq_refl)
      end
  end.

Lemma parse_digits_acc d : ∀ p,
  JS.parse_digits (Some (Z.pos p)) (NilEmpty.string_of_uint d)
  = Some (Z.pos (Pos.of_uint_acc d p)).
Proof.
  induction d as [|d IH|d IH|d IH|d IH|d IH|d IH|d IH|d IH|d IH|d IH];
    intros p; cbn [NilEmpty.string_of_uint Pos.of_uint_acc]; [done|..];
    read_digit; rewrite <- IH; do 2 f_equal; cbn [default from_option id]; lia.
Qed.

Lemma parse_digits_zero d :
  JS.parse_digits (Some 0) (NilEmpty.string_of_uint d)
  = Some (Z.of_N (Pos.of_uint d)).
Proof.
  induction d as [|d IH|d IH|d IH|d IH|d IH|d IH|d IH|d IH|d IH|d IH];
    cbn [NilEmpty.string_of_uint Pos.of_uint]; [done|..];
    read_digit; first [exact IH | apply parse_digits_acc].
Qed.

Lemma parse_digits_uint d :
  d ≠ Nil →
  JS.parse_digits None (NilEmpty.string_of_uint d) = Some (Z.of_N (Pos.of_uint d)).
Proof.
  destruct d; [done|..]; intros _;
    cbn [NilEmpty.string_of_uint Pos.of_uint]; read_digit;
    first [apply parse_digits_zero | apply parse_digits_acc].
Qed.

(** A text that starts with a digit has no white space or sign to skip. *)
Lemma parseInt_digit_first c r :
  JS.is_digit c = true →
  JS.parseInt (String c r)
  = match JS.parse_digits None (String c r) with
    | None => JS.NaN
    | Some m => JS.Num m
    end.
Proof.
  intros Hc. unfold JS.parseInt.
  assert (JS.trim_start (String c r) = String c r) as ->.
  { simpl. destruct (JS.is_space c) eqn:Hs; [|done].
    destruct c as [[] [] [] [] [] [] [] []]; by vm_compute in Hc, Hs. }
  destruct c as [[] [] [] [] [] [] [] []]; try (by vm_compute in Hc);
    destruct (JS.parse_digits _ _) as [m|]; try done; f_equal; lia.
Qed.

Lemma string_of_uint_digit_first d :
  d ≠ Nil → ∃ c r, NilEmpty.string_of_uint d = String c r ∧ JS.is_digit c = true.
Proof. destruct d; [done|..]; intros _; simpl; eauto. Qed.

Lemma parseInt_toString_pos p :
  JS.parseInt (JS.toString (JS.Num (Z.pos p))) = JS.Num (Z.pos p).
Proof.
  unfold JS.toString. cbn [Z.to_int NilZero.string_of_int].
  pose proof (DecimalPos.Unsigned.to_uint_nonnil p) as Hnil.
  assert (NilZero.string_of_uint (Pos.to_uint p)
          = NilEmpty.string_of_uint (Pos.to_uint p)) as ->.
  { unfold NilZero.string_of_uint. by destruct (Pos.to_uint p). }
  destruct (string_of_uint_digit_first _ Hnil) as (c & r & E & Hc).
  rewrite E, (parseInt_digit_first c r Hc), <- E, (parse_digits_uint _ Hnil).
  by rewrite DecimalPos.Unsigned.of_to.
Qed.

(** What [toString] prints for an offset, [parseInt] reads back. *)
Lemma parseInt_toString (k : nat) :
  JS.parseInt (JS.toString (JS.Num (Z.of_nat k))) = JS.Num (Z.of_nat k).
Proof.
  destruct k as [|k]; [reflexivity|].
  rewrite Nat2Z.inj_succ, <- Zpos_P_of_succ_nat. apply parseInt_toString_pos.
Qed.

Lemma toString_decimal (k : nat) :
  JS.toString (JS.Num (Z.of_nat k)) = Spec.decimal k.
Proof. by destruct k. Qed.

End cursors.

(** ** Pagination *)

Section pagination.

Context {A : Type}.
Implicit Types (l : list A) (o n : nat).

Lemma slice_window l o n :
  JS.slice l (JS.Num (Z.of_nat o)) (JS.Num (Z.of_nat (o + n))) = take n (drop o l).
Proof.
  unfold JS.slice, JS.rel_index.
  destruct (Z.ltb_spec (Z.of_nat o) 0) as [|_]; [lia|].
  destruct (Z.ltb_spec (Z.of_nat (o + n)) 0) as [|_]; [lia|].
  destruct (decide (length l ≤ o)%nat) as [Hle|Hlt].
  - rewrite !(drop_ge l) by lia. by rewrite !take_nil.
  - replace (Z.to_nat (Z.min (Z.of_nat o) (Z.of_nat (length l)))) with o by lia.
    destruct (decide (o + n ≤ length l)%nat).
    + f_equal. lia.
    + rewrite !take_ge; [done | rewrite length_drop; lia..].
Qed.

Lemma lt_length l o n :
  JS.lt (JS.Num (Z.of_nat (o + n))) (JS.length_num l)
  = negb (bool_decide (length l ≤ o + n)%nat).
Proof.
  unfold JS.lt, JS.length_num.
  destruct (Z.ltb_spec (Z.of_nat (o + n)) (Z.of_nat (length l)));
    case_bool_decide; simpl; (done || lia).
Qed.

(** The start index both handlers compute from a cursor. *)
Lemma start_index cursor o :
  Spec.cursor_offset cursor o →
  match cursor with
  | Some c => if JS.truthy_str c then JS.parseInt c else JS.Num 0
  | None => JS.Num 0
  end = JS.Num (Z.of_nat o).
Proof.
  destruct cursor as [c|]; simpl.
  - intros H. destruct c; [done|]. by simpl.
  - by intros ->.
Qed.

Lemma cursor_offset_toString o :
  Spec.cursor_offset (Some (JS.toString (JS.Num (Z.of_nat o)))) o.
Proof. apply parseInt_toString. Qed.

(** Following the cursors of a fetcher that serves the windows of [l]. *)
Lemma follow_windows l n (fetch : option string → Fetched A) :
  (0 < n)%nat →
  (∀ cursor o, Spec.cursor_offset cursor o → fetch cursor = Spec.window l o n) →
  ∀ fuel cursor o,
    Spec.cursor_offset cursor o → (length l - o < fuel)%nat →
    follow fetch fuel cursor = Some (drop o l).
Proof.
  intros Hn Hfetch fuel.
  induction fuel as [|fuel IH]; intros cursor o Hc Hfuel; [lia|].
  simpl. rewrite (Hfetch cursor o Hc). unfold Spec.window.
  case_bool_decide as Hdone.
  - f_equal. apply take_ge. rewrite length_drop. lia.
  - rewrite (IH _ (o + n)%nat).
    + simpl. by rewrite <- drop_drop, take_drop.
    + rewrite <- toString_decimal. apply cursor_offset_toString.
    + lia.
Qed.

Lemma follow_all l n (fetch : option string → Fetched A) fuel :
  (0 < n)%nat →
  (∀ cursor o, Spec.cursor_offset cursor o → fetch cursor = Spec.window l o n) →
  (length l < fuel)%nat →
  follow fetch fuel None = Some l.
Proof.
  intros Hn Hfetch Hfuel.
  rewrite (follow_windows l n fetch Hn Hfetch fuel None 0%nat); [done..|lia].
Qed.

End pagination.

Lemma list_window auth args db cursor o n :
  Clips.PaginationOpts.numItems (Clips.ListArgs.paginationOpts args)
    = JS.Num (Z.of_nat n) →
  Spec.cursor_offset cursor o →
  fetch_list auth args db cursor = Spec.window (Clips.results auth args db) o n.
Proof.
  intros Hn Hc. unfold fetch_list, Clips.list, Spec.window.
  change (Clips.results auth (with_cursor args cursor) db)
    with (Clips.results auth args db).
  cbn [with_cursor Clips.ListArgs.paginationOpts Clips.PaginationOpts.cursor
       Clips.PaginationOpts.numItems Clips.page Clips.isDone Clips.continueCursor].
  rewrite (start_index cursor o Hc), Hn.
  cbn [JS.add]. rewrite <- Nat2Z.inj_add, slice_window, lt_length, toString_decimal.
  by case_bool_decide.
Qed.

Lemma trim_end_empty s : JS.trim_end s = "" → Spec.all_chars JS.is_space s = true.
Proof.
  induction s as [|c r IH]; simpl; [done|].
  destruct (JS.trim_end r); [|done].
  destruct (JS.is_space c); [auto | done].
Qed.

Lemma trim_start_spaces s :
  Spec.all_chars JS.is_space (JS.trim_start s) = true →
  Spec.all_chars JS.is_space s = true.
Proof.
  induction s as [|c r IH]; simpl; [done|].
  destruct (JS.is_space c) eqn:Hc; simpl; [auto|]. by rewrite Hc.
Qed.

Lemma all_chars_impl (p q : ascii → bool) s :
  (∀ c, p c = true → q c = true) →
  Spec.all_chars p s = true → Spec.all_chars q s = true.
Proof.
  intros Hpq. induction s as [|c r IH]; simpl; [done|].
  intros [Hc Hr]%andb_prop. by rewrite (Hpq c Hc), IH.
Qed.

(** The first short-circuit of [query] is covered by the second. *)
Lemma trim_empty_no_token q : JS.trim q = "" → Search.tokenize q = [].
Proof.
  intros H. apply tokenize_no_word.
  apply (all_chars_impl JS.is_space).
  - intros c Hc. destruct (JS.is_word c) eqn:Hw; [|done].
    by rewrite (word_not_space c Hw) in Hc.
  - by apply trim_start_spaces, trim_end_empty.
Qed.

Lemma search_window auth q db cursor o n :
  (0 < n)%nat →
  Spec.cursor_offset cursor o →
  fetch_search auth q (Some (JS.Num (Z.of_nat n))) db cursor
  = Spec.window (Spec.search_sequence auth q db) o n.
Proof.
  intros Hn Hc. unfold fetch_search, Search.query, Spec.search_sequence, Spec.window.
  assert (JS.truthy_num (JS.Num (Z.of_nat n)) = true) as ->.
  { simpl. destruct (Z.eqb_spec (Z.of_nat n) 0); [lia | done]. }
  destruct (JS.trim q) eqn:Htrim.
  - rewrite (trim_empty_no_token q Htrim).
    rewrite bool_decide_eq_true_2 by (simpl; lia).
    by rewrite drop_nil, take_nil.
  - cbn [JS.truthy_str JS.is_empty negb].
    destruct (Search.tokenize q) as [|t ts] eqn:Htok.
    + rewrite bool_decide_eq_true_2 by (simpl; lia).
      by rewrite drop_nil, take_nil.
    + cbn [length Nat.eqb Search.results Search.isDone Search.cursor].
      rewrite (start_index cursor o Hc).
      cbn [JS.add]. rewrite <- Nat2Z.inj_add, slice_window, lt_length, toString_decimal.
      by case_bool_decide.
Qed.

(** ** Claims on pagination *)

Lemma slice_NaN {A} (l : list A) : JS.slice l JS.NaN JS.NaN = [].
Proof. reflexivity. Qed.

(** A cursor that [parseInt] cannot read gives an empty last page. *)
Lemma list_unreadable_cursor auth args db c :
  c ≠ "" → JS.parseInt c = JS.NaN →
  Clips.list auth (with_cursor args (Some c)) db = Clips.mkListResult [] true None.
Proof.
  intros Hc Hnan. unfold Clips.list.
  cbn [with_cursor Clips.ListArgs.paginationOpts Clips.PaginationOpts.cursor].
  destruct c; [done|]. cbn [JS.truthy_str JS.is_empty negb]. by rewrite Hnan.
Qed.

Lemma query_unreadable_cursor auth q limit db c :
  c ≠ "" → JS.parseInt c = JS.NaN →
  Search.query auth q limit (Some c) db = Search.mkQueryResult [] None true.
Proof.
  intros Hc Hnan. unfold Search.query.
  destruct (negb _); [done|]. destruct (_ =? _)%nat; [done|].
  destruct c; [done|]. cbn [JS.truthy_str JS.is_empty negb]. by rewrite Hnan.
Qed.

(** C1.  With one clip in Alice's catalog, the cursor "abc" is accepted by
    [list] and by [query], but the page that comes back is empty and marked
    as the last one, while the request without cursor returns the clip:
    the malformed cursor is not read as offset 0. *)
Theorem malformed_cursor_is_not_offset_zero :
  let args := Spec.no_filters (Sample.first_page 10) in
  let clip := (1%positive, Sample.floor_clip) in
  Clips.list Sample.alice args Sample.floor_db
    = Clips.mkListResult [clip] true None
  ∧ Clips.list Sample.alice (with_cursor args (Some "abc")) Sample.floor_db
    = Clips.mkListResult [] true None
  ∧ Search.query Sample.alice "floor" (Some (JS.Num 10)) None Sample.floor_db
    = Search.mkQueryResult [clip] None true
  ∧ Search.query Sample.alice "floor" (Some (JS.Num 10)) (Some "abc") Sample.floor_db
    = Search.mkQueryResult [] None true.
Proof.
  intros args clip. split; [|split; [|split]].
  - by vm_compute.
  - by apply list_unreadable_cursor.
  - by vm_compute.
  - by apply query_unreadable_cursor.
Qed.

(** C4.  For a page size [n > 0] and a cursor that stands for the offset
    [o], [list] and [query] return the page [S[o : o+n]], [isDone] as
    [o + n >= length S], and as next cursor nothing when done and the
    decimal string of [o + n] otherwise, where [S] is the sequence the
    handler computed; a client that starts without cursor and follows the
    cursors until [isDone] gets exactly [S]. *)
Theorem pagination_is_windowed_and_exhaustive auth db (o n : nat) cursor :
  (0 < n)%nat → Spec.cursor_offset cursor o →
  (∀ args,
     Clips.PaginationOpts.numItems (Clips.ListArgs.paginationOpts args)
       = JS.Num (Z.of_nat n) →
     let S := Clips.results auth args db in
     let done := bool_decide (length S ≤ o + n)%nat in
     Clips.list auth (with_cursor args cursor) db
       = Clips.mkListResult (take n (drop o S)) done
           (if done then None else Some (Spec.decimal (o + n)))
     ∧ ∀ fuel, (length S < fuel)%nat →
         follow (fetch_list auth args db) fuel None = Some S)
  ∧ (∀ q,
     let S := Spec.search_sequence auth q db in
     let done := bool_decide (length S ≤ o + n)%nat in
     Search.query auth q (Some (JS.Num (Z.of_nat n))) cursor db
       = Search.mkQueryResult (take n (drop o S))
           (if done then None else Some (Spec.decimal (o + n))) done
     ∧ ∀ fuel, (length S < fuel)%nat →
         follow (fetch_search auth q (Some (JS.Num (Z.of_nat n))) db) fuel None
         = Some S).
Proof.
  intros Hn Hc. split.
  - intros args Hargs S done. split.
    + pose proof (list_window auth args db cursor o n Hargs Hc) as H.
      unfold fetch_list, Spec.window in H.
      destruct (Clips.list _ _ _) as [p d c]. simpl in H. by simplify_eq.
    + intros fuel Hfuel. apply (follow_all S n); [done| |done].
      intros c' o' Hc'. by apply list_window.
  - intros q S done. split.
    + pose proof (search_window auth q db cursor o n Hn Hc) as H.
      unfold fetch_search, Spec.window in H.
      destruct (Search.query _ _ _ _ _) as [p c d]. simpl in H. by simplify_eq.
    + intros fuel Hfuel. apply (follow_all S n); [done| |done].
      intros c' o' Hc'. by apply search_window.
Qed.

Lemma pagination_is_windowed_and_exhaustive_witness :
  let S := Clips.results Sample.alice (Sample.pages_of 2) Sample.three_db in
  Clips.list Sample.alice (with_cursor (Sample.pages_of 2) (Some "2")) Sample.three_db
    = Clips.mkListResult (take 2 (drop 2 S))
        (bool_decide (length S ≤ 2 + 2)%nat)
        (if bool_decide (length S ≤ 2 + 2)%nat then None
         else Some (Spec.decimal (2 + 2)))
  ∧ follow (fetch_list Sample.alice (Sample.pages_of 2) Sample.three_db) 4 None
    = Some S.
Proof.
  intros S.
  destruct (proj1 (pagination_is_windowed_and_exhaustive
                     Sample.alice Sample.three_db 2 2 (Some "2")
                     ltac:(lia) eq_refl) (Sample.pages_of 2) eq_refl)
    as [Hpage Hall].
  split; [exact Hpage|]. apply Hall. vm_compute. lia.
Defined.

(** ** Claims on search *)

Lemma existsb_false_iff {A} (f : A → bool) l :
  existsb f l = false ↔ ∀ x, x ∈ l → f x = false.
Proof.
  induction l as [|y l IH]; simpl.
  - split; [intros _ x Hx; by apply elem_of_nil in Hx | done].
  - rewrite orb_false_iff, IH. split.
    + intros [Hy Hl] x [->|Hx]%elem_of_cons; auto.
    + intros H. split; [apply H; left | intros x Hx; apply H; by right].
Qed.

Lemma includes_false s t : JS.includes s t = false ↔ ¬ Spec.substring t s.
Proof. rewrite <- includes_spec. by destruct (JS.includes s t). Qed.

(** The tokens searched for a clip whose only tag is one lower-case word. *)
Lemma searchTokens_one_tag clip tag :
  Clip.tags clip = [tag] →
  Search.tokenize (JS.toLowerCase (JS.join " " (Search.searchableFields clip)))
  = (Search.tokenize tag ++ Search.tokenize (Clip.objectKey clip)
     ++ Search.tokenize (Search.or_empty (angle_str <$> Clip.angle clip))
     ++ Search.tokenize (Search.or_empty (apparatus_str <$> Clip.apparatus clip)))%list.
Proof.
  intros Htag. rewrite searchTokens_fields. unfold Search.searchableFields.
  rewrite Htag. cbn [app fmap list_fmap concat]. by rewrite app_nil_r.
Qed.

Lemma matchesQuery_handstand_tag clip q :
  Clip.tags clip = ["handstand"] →
  Search.tokenize q = [q] →
  JS.includes "handstand" q || JS.includes q "handstand" = true →
  Search.matchesQuery clip (Search.tokenize q) = true.
Proof.
  intros Htag Hq Hin. unfold Search.matchesQuery.
  rewrite (searchTokens_one_tag clip "handstand" Htag), Hq.
  change (Search.tokenize "handstand") with ["handstand"].
  cbn [forallb app existsb]. by rewrite Hin.
Qed.

Lemma enum_tokens_miss_handstand (angle : option Angle) (apparatus : option Apparatus) :
  existsb (λ s, JS.includes s "handstand" || JS.includes "handstand" s)
    (Search.tokenize (Search.or_empty (angle_str <$> angle))
     ++ Search.tokenize (Search.or_empty (apparatus_str <$> apparatus))) = false.
Proof. destruct angle as [[]|], apparatus as [[]|]; by vm_compute. Qed.

(** C3 (amended).  For a query text with at least one token, the sequence
    [query] paginates holds a clip iff the clip is the caller's and every
    query token contains, or is contained in, some token of the clip's
    lower-cased, space-joined tags, object key, angle and apparatus.  A clip
    tagged ["handstand"] matches "hand" and "handstands"; a clip tagged
    ["floor"] does not match "handstand" as long as no token of its object
    key contains or is contained in "handstand". *)
Theorem search_matches_by_token_containment :
  (∀ auth q db (d : ClipDoc), Search.tokenize q ≠ [] →
     (∀ n, (0 < n)%nat →
        Search.results (Search.query auth q (Some (JS.Num (Z.of_nat n))) None db)
        = take n (Spec.search_sequence auth q db))
     ∧ (d ∈ Spec.search_sequence auth q db
        ↔ (clips db !! d.1 = Some d.2 ∧ Clip.userId d.2 = getCurrentUserId auth)
          ∧ Spec.matches q d.2))
  ∧ (∀ clip, Clip.tags clip = ["handstand"] →
       Spec.matches "hand" clip ∧ Spec.matches "handstands" clip)
  ∧ (∀ clip, Clip.tags clip = ["floor"] →
       (∀ s, s ∈ Search.tokenize (Clip.objectKey clip) →
          ¬ Spec.substring "handstand" s ∧ ¬ Spec.substring s "handstand") →
       ¬ Spec.matches "handstand" clip).
Proof.
  split; [|split].
  - intros auth q db d Hq. split.
    + intros n Hn.
      pose proof (search_window auth q db None 0 n Hn eq_refl) as H.
      unfold fetch_search, Spec.window in H.
      destruct (Search.query _ _ _ _ _) as [p c dn]. simpl in H. by simplify_eq.
    + unfold Spec.search_sequence.
      destruct (Search.tokenize q) as [|t ts] eqn:Htok; [done|].
      by rewrite elem_of_matchingClips, <- Htok, matchesQuery_spec.
  - intros clip Htag. split; apply matchesQuery_spec.
    + by apply matchesQuery_handstand_tag.
    + by apply matchesQuery_handstand_tag.
  - intros clip Htag Hkey Hm. apply matchesQuery_spec in Hm.
    unfold Search.matchesQuery in Hm.
    rewrite (searchTokens_one_tag clip "floor" Htag) in Hm.
    change (Search.tokenize "handstand") with ["handstand"] in Hm.
    change (Search.tokenize "floor") with ["floor"] in Hm.
    cbn [forallb] in Hm. rewrite andb_true_r in Hm.
    do 2 rewrite existsb_app in Hm.
    rewrite enum_tokens_miss_handstand, orb_false_r in Hm.
    apply orb_true_iff in Hm as [Hm|Hm]; [by vm_compute in Hm|].
    apply not_false_iff_true in Hm. apply Hm, existsb_false_iff.
    intros s [H1 H2]%Hkey. apply orb_false_iff. by rewrite !includes_false.
Qed.

Lemma search_matches_by_token_containment_witness :
  Spec.matches "hand" Sample.handstand_clip
  ∧ ¬ Spec.matches "handstand" Sample.rings_floor_clip.
Proof.
  split.
  - apply (proj1 (proj1 (proj2 search_matches_by_token_containment)
             Sample.handstand_clip eq_refl)).
  - apply (proj2 (proj2 search_matches_by_token_containment)
             Sample.rings_floor_clip eq_refl).
    intros s Hs. vm_compute in Hs.
    repeat (apply elem_of_cons in Hs as [->|Hs];
            [split; apply includes_false; by vm_compute|]).
    by apply elem_of_nil in Hs.
Defined.

(** C3, as stated, fails: Alice's clip tagged ["floor"] whose object key is
    "videos/handstand.mp4" is returned for the query "handstand". *)
Lemma floor_clip_matches_handstand :
  Clip.tags Sample.floor_clip = ["floor"]
  ∧ Search.results
      (Search.query Sample.alice "handstand" (Some (JS.Num 10)) None Sample.floor_db)
    = [(1%positive, Sample.floor_clip)]
  ∧ Search.matchesQuery Sample.floor_clip (Search.tokenize "handstand") = true.
Proof. by vm_compute. Qed.

(** ** Claims on the filtered listing *)

Section listing.

Lemma arr_includes_spec arr x : arr_includes arr x = true ↔ x ∈ arr.
Proof.
  unfold arr_includes. rewrite existsb_exists. split.
  - intros (y & Hy%list_elem_of_In & ->%String.eqb_eq). done.
  - intros Hx. exists x. by rewrite <- list_elem_of_In, String.eqb_refl.
Qed.

Lemma some_tag_spec (tags ts : list string) :
  existsb (λ tag, arr_includes tags tag) ts = true
  ↔ ∃ tag, tag ∈ ts ∧ tag ∈ tags.
Proof.
  rewrite existsb_exists. split.
  - intros (t & Ht%list_elem_of_In & Hin%arr_includes_spec). eauto.
  - intros (t & Ht & Hin). exists t. by rewrite <- list_elem_of_In, arr_includes_spec.
Qed.

(** One optional filter of [list]. *)
Lemma elem_of_optional_filter {B} (x : option B) (f : B → ClipDoc → bool)
    (l : list ClipDoc) d :
  d ∈ match x with Some b => List.filter (f b) l | None => l end
  ↔ d ∈ l ∧ ∀ b, x = Some b → f b d = true.
Proof.
  destruct x as [b|].
  - rewrite elem_of_js_filter. split.
    + intros [Hd Hf]. split; [done|]. intros b' E. by simplify_eq.
    + intros [Hd Hf]. split; [done|]. by apply Hf.
  - split; [intros Hd; split; [done | by intros b E] | by intros [Hd _]].
Qed.

Lemma optional_filter_sorted {B} (x : option B) (f : B → ClipDoc → bool)
    (l : list ClipDoc) :
  StronglySorted newer_first l →
  StronglySorted newer_first match x with Some b => List.filter (f b) l | None => l end.
Proof. destruct x; [apply js_filter_sorted | done]. Qed.

Lemma elem_of_tags_filter (x : option (list string)) (l : list ClipDoc) d :
  d ∈ match x with
      | Some tags =>
          if (0 <? length tags)%nat
          then List.filter (λ clip : ClipDoc,
                 existsb (λ tag, arr_includes (Clip.tags clip.2) tag) tags) l
          else l
      | None => l
      end
  ↔ d ∈ l ∧ ∀ ts, x = Some ts → ts ≠ [] → ∃ tag, tag ∈ ts ∧ tag ∈ Clip.tags d.2.
Proof.
  destruct x as [[|t ts]|]; cbn [length Nat.ltb Nat.leb].
  - split; [intros Hd; split; [done|] | by intros [Hd _]].
    intros ts E. by simplify_eq.
  - rewrite elem_of_js_filter, some_tag_spec. split.
    + intros [Hd Hf]. split; [done|]. intros ts' E _. by simplify_eq.
    + intros [Hd Hf]. split; [done|]. by apply Hf.
  - split; [intros Hd; split; [done | by intros ts E] | by intros [Hd _]].
Qed.

Lemma elem_of_date_filter (x : option (Z * Z)) (l : list ClipDoc) d :
  d ∈ match x with
      | Some (start, stop) =>
          filter (λ d : ClipDoc,
            start <= Clip.createdAt d.2 ∧ Clip.createdAt d.2 <= stop) l
      | None => l
      end
  ↔ d ∈ l ∧ ∀ start stop, x = Some (start, stop) →
               start <= Clip.createdAt d.2 <= stop.
Proof.
  destruct x as [[start stop]|].
  - rewrite list_elem_of_filter. split.
    + intros [H Hd]. split; [done|]. intros start' stop' E. by simplify_eq.
    + intros [Hd H]. split; [by apply H | done].
  - split; [intros Hd; split; [done | by intros ? ? E] | by intros [Hd _]].
Qed.

Lemma elem_of_results auth args db (d : ClipDoc) :
  d ∈ Clips.results auth args db
  ↔ (clips db !! d.1 = Some d.2 ∧ Clip.userId d.2 = getCurrentUserId auth)
    ∧ Spec.passes_filter args d.2.
Proof.
  unfold Clips.results. cbv zeta.
  rewrite (elem_of_optional_filter (Clips.ListArgs.sessionId args)
             (λ s clip, bool_decide (Clip.sessionId clip.2 = Some s))).
  rewrite (elem_of_optional_filter (Clips.ListArgs.favorite args)
             (λ f clip, bool_decide (Clip.favorite clip.2 = Some f))).
  rewrite (elem_of_optional_filter (Clips.ListArgs.apparatus args)
             (λ a clip, bool_decide (Clip.apparatus clip.2 = Some a))).
  rewrite (elem_of_optional_filter (Clips.ListArgs.angle args)
             (λ a clip, bool_decide (Clip.angle clip.2 = Some a))).
  rewrite elem_of_tags_filter, elem_of_order_desc, elem_of_date_filter,
    elem_of_by_user.
  split.
  - intros ((((([Hdb Hdate] & Htags) & Hangle) & Happ) & Hfav) & Hsess).
    split; [done|].
    constructor; [exact Htags | | | | | exact Hdate];
      intros x Hx; eapply bool_decide_eq_true; eauto.
  - intros [Hdb [Htags Hangle Happ Hfav Hsess Hdate]].
    split; [split; [split; [split; [split; [split|]|]|]|]|];
      [exact Hdb | exact Hdate | exact Htags | ..];
      intros x Hx; apply bool_decide_eq_true; eauto.
Qed.

Lemma results_sorted auth args db :
  StronglySorted newer_first (Clips.results auth args db).
Proof.
  unfold Clips.results. cbv zeta.
  do 4 apply optional_filter_sorted.
  destruct (Clips.ListArgs.tags args) as [ts|];
    [destruct (0 <? length ts)%nat; [apply js_filter_sorted|] |];
    apply order_desc_sorted.
Qed.

End listing.

(** C2 (amended).  The sequence [list] paginates holds a clip iff the clip
    is the caller's and passes every supplied filter field: tags when the
    clip's tags meet a supplied non-empty tag list (a supplied empty list
    constrains nothing), angle, apparatus, favorite and sessionId when the
    stored value equals the supplied one, dateRange when
    [start <= createdAt <= end].  The sequence is ordered by [createdAt]
    descending, without filters it is the whole scan of the caller's clips,
    and no clip of another owner is in it. *)
Theorem list_is_owner_scoped_conjunction auth args db :
  (∀ d : ClipDoc,
     d ∈ Clips.results auth args db
     ↔ (clips db !! d.1 = Some d.2 ∧ Clip.userId d.2 = getCurrentUserId auth)
       ∧ Spec.passes_filter args d.2)
  ∧ StronglySorted newer_first (Clips.results auth args db)
  ∧ (∀ opts,
       Clips.results auth (Spec.no_filters opts) db
       = order_desc (by_user_and_created_at (getCurrentUserId auth) db)
       ∧ ∀ d : ClipDoc,
           d ∈ Clips.results auth (Spec.no_filters opts) db
           ↔ clips db !! d.1 = Some d.2 ∧ Clip.userId d.2 = getCurrentUserId auth)
  ∧ (∀ d : ClipDoc,
       d ∈ Clips.results auth args db → Clip.userId d.2 = getCurrentUserId auth).
Proof.
  split; [|split; [|split]].
  - apply elem_of_results.
  - apply results_sorted.
  - intros opts. split; [reflexivity|].
    intros d. change (Clips.results auth (Spec.no_filters opts) db)
      with (order_desc (by_user_and_created_at (getCurrentUserId auth) db)).
    by rewrite elem_of_order_desc, elem_of_by_user.
  - intros d Hd. by apply elem_of_results in Hd as [[_ ?] _].
Qed.

(** C2, as stated, fails: with [tags: []] supplied, Alice's clip is listed
    although its tags do not meet the (empty) supplied set. *)
Lemma empty_tag_list_filters_nothing :
  (1%positive, Sample.floor_clip)
    ∈ Clips.results Sample.alice Sample.empty_tag_filter Sample.floor_db
  ∧ ¬ Spec.claimed_filter Sample.empty_tag_filter Sample.floor_clip.
Proof.
  split.
  - vm_compute. apply list_elem_of_here.
  - intros [Htags _ _ _ _ _].
    destruct (Htags [] eq_refl) as (tag & Hin & _). by apply elem_of_nil in Hin.
Qed.

Lemma list_is_owner_scoped_conjunction_witness :
  Clip.userId (1%positive, Sample.floor_clip).2 = getCurrentUserId Sample.alice.
Proof.
  apply (proj2 (proj2 (proj2 (list_is_owner_scoped_conjunction
           Sample.alice Sample.empty_tag_filter Sample.floor_db)))).
  vm_compute. apply list_elem_of_here.
Defined.

(** C8 (amended).  The favorite filter compares with the stored value: when
    [favorite: f] is supplied every listed clip stores [favorite = f], so a
    clip without a stored value is listed neither for [false] nor for
    [true].  The clips [finalizeUpload] creates store [false]. *)
Theorem favorite_filter_needs_a_stored_value auth args db f :
  Clips.ListArgs.favorite args = Some f →
  (∀ d : ClipDoc, d ∈ Clips.results auth args db → Clip.favorite d.2 = Some f)
  ∧ (∀ d : ClipDoc, Clip.favorite d.2 = None → d ∉ Clips.results auth args db)
  ∧ (∀ fargs now id db',
       Upload.finalizeUpload auth fargs now db = (Ok id, db') →
       Clip.favorite <$> clips db' !! id = Some (Some false)).
Proof.
  intros Hf. split; [|split].
  - intros d [_ Hpass]%elem_of_results. by apply Hpass.
  - intros d Hnone [_ Hpass]%elem_of_results.
    apply (Spec.passes_favorite _ _ Hpass) in Hf. congruence.
  - intros fargs now id db'. unfold Upload.finalizeUpload, insert_clip.
    destruct (_ <? _); [done|]. destruct (is_users_id _); [|done].
    intros [= <- <-]. simpl. by rewrite lookup_insert_eq.
Qed.

Lemma favorite_filter_needs_a_stored_value_witness :
  (1%positive, Sample.unrated_clip)
    ∉ Clips.results Sample.alice (Sample.only_favorite false) Sample.unrated_db.
Proof.
  apply (proj1 (proj2 (favorite_filter_needs_a_stored_value
           Sample.alice (Sample.only_favorite false) Sample.unrated_db false
           eq_refl))).
  reflexivity.
Defined.

(** C8, as stated, fails: Alice's clip without a stored [favorite] is not in
    the result of [list] with [favorite: false]. *)
Lemma unrated_clip_is_not_listed_as_non_favorite :
  clips Sample.unrated_db !! 1%positive = Some Sample.unrated_clip
  ∧ Clip.userId Sample.unrated_clip = getCurrentUserId Sample.alice
  ∧ Clip.favorite Sample.unrated_clip = None
  ∧ Clips.results Sample.alice (Sample.only_favorite false) Sample.unrated_db = [].
Proof. by vm_compute. Qed.

(** ** Claims on single-record operations *)

Section single_record.

Lemma not_mine_absent_or_foreign (clip : option Clip.t) userId :
  clip = None ∨ (∃ c, clip = Some c ∧ Clip.userId c ≠ userId) →
  Clips.not_mine clip userId = true.
Proof.
  intros [-> | (c & -> & Hne)]; [done|]. simpl.
  by apply negb_true_iff, String.eqb_neq.
Qed.

Lemma not_mine_false (clip : option Clip.t) userId :
  Clips.not_mine clip userId = false →
  ∃ c, clip = Some c ∧ Clip.userId c = userId.
Proof.
  destruct clip as [c|]; [|done]. simpl.
  intros H%negb_false_iff%String.eqb_eq. eauto.
Qed.

End single_record.

(** C6.  When no clip has the id, or the clip under it belongs to someone
    else, [updateMeta], [deleteClip] and [get] all fail with the one message
    "Clip not found or access denied", the same in both cases, and the
    mutations leave the database as it was. *)
Theorem absent_or_foreign_clip_is_denied auth id db :
  clips db !! id = None
  ∨ (∃ c, clips db !! id = Some c ∧ Clip.userId c ≠ getCurrentUserId auth) →
  (∀ tags angle apparatus favorite sessionId,
     Clips.updateMeta auth
       (Clips.UpdateMetaArgs.mk id tags angle apparatus favorite sessionId) db
     = (Throw "Clip not found or access denied", db))
  ∧ Clips.deleteClip auth id db = (Throw "Clip not found or access denied", db)
  ∧ Clips.get auth id db = Throw "Clip not found or access denied".
Proof.
  intros H%not_mine_absent_or_foreign. split; [|split].
  - intros. unfold Clips.updateMeta. cbn [Clips.UpdateMetaArgs.id]. by rewrite H.
  - unfold Clips.deleteClip. by rewrite H.
  - unfold Clips.get. by rewrite H.
Qed.

Lemma absent_or_foreign_clip_is_denied_witness :
  Clips.deleteClip Sample.bob 1 Sample.floor_db
    = (Throw "Clip not found or access denied", Sample.floor_db)
  ∧ Clips.deleteClip Sample.bob 7 Sample.floor_db
    = (Throw "Clip not found or access denied", Sample.floor_db).
Proof.
  split.
  - apply (absent_or_foreign_clip_is_denied Sample.bob 1 Sample.floor_db).
    right. exists Sample.floor_clip. split; [by vm_compute | by vm_compute].
  - apply (absent_or_foreign_clip_is_denied Sample.bob 7 Sample.floor_db).
    left. by vm_compute.
Defined.

(** C9.  [deleteSession] on a session of the caller succeeds and removes
    that session document and nothing else: the clips table is the one from
    before, so every clip, also one that refers to the session, keeps all
    its fields and its (now dangling) [sessionId]; the other sessions stay. *)
Theorem deleteSession_removes_only_the_session auth s sess db :
  sessions db !! s = Some sess →
  Session.userId sess = getCurrentUserId auth →
  ∃ db',
    Sessions.deleteSession auth s db = (Ok success, db')
    ∧ clips db' = clips db
    ∧ (∀ id c, clips db !! id = Some c → Clip.sessionId c = Some s →
         clips db' !! id = Some c)
    ∧ sessions db' = delete s (sessions db)
    ∧ sessions db' !! s = None
    ∧ (∀ s', s' ≠ s → sessions db' !! s' = sessions db !! s').
Proof.
  intros Hs Hown. unfold Sessions.deleteSession. rewrite Hs.
  cbn [Sessions.not_mine]. rewrite Hown, String.eqb_refl. cbn [negb].
  eexists. split; [reflexivity|]. cbn [clips sessions].
  split; [done|]. split; [done|]. split; [done|].
  split; [apply lookup_delete_eq|]. intros s' Hne. by apply lookup_delete_ne.
Qed.

Lemma deleteSession_removes_only_the_session_witness :
  (Sessions.deleteSession Sample.alice 1 Sample.session_db).1 = Ok success
  ∧ clips (Sessions.deleteSession Sample.alice 1 Sample.session_db).2
      !! 2%positive = Some Sample.filed_clip.
Proof.
  destruct (deleteSession_removes_only_the_session
              Sample.alice 1 Sample.monday Sample.session_db)
    as (db' & -> & _ & Hclip & _); [by vm_compute | by vm_compute |].
  split; [done|]. apply Hclip; by vm_compute.
Defined.

(** C10.  A successful [updateMeta] rewrites the target clip only in the
    supplied fields: [userId], [objectKey], [createdAt], [bytes] (and
    [durationMs], [width], [height]) stay, a supplied field takes the
    supplied value, an omitted one keeps its old value.  Hence a field that
    held a value still holds one afterwards: nothing can be cleared.  The
    other clips and the sessions are untouched. *)
Theorem updateMeta_writes_only_supplied_fields auth args db :
  (Clips.updateMeta auth args db).1 = Ok success →
  let id := Clips.UpdateMetaArgs.id args in
  let db' := (Clips.updateMeta auth args db).2 in
  ∃ c c',
    clips db !! id = Some c ∧ clips db' !! id = Some c'
    ∧ (Clip.userId c' = Clip.userId c
       ∧ Clip.objectKey c' = Clip.objectKey c
       ∧ Clip.createdAt c' = Clip.createdAt c
       ∧ Clip.bytes c' = Clip.bytes c
       ∧ Clip.durationMs c' = Clip.durationMs c
       ∧ Clip.width c' = Clip.width c
       ∧ Clip.height c' = Clip.height c)
    ∧ (Clip.tags c' = default (Clip.tags c) (Clips.UpdateMetaArgs.tags args)
       ∧ Clip.angle c'
         = from_option Some (Clip.angle c) (Clips.UpdateMetaArgs.angle args)
       ∧ Clip.apparatus c'
         = from_option Some (Clip.apparatus c) (Clips.UpdateMetaArgs.apparatus args)
       ∧ Clip.favorite c'
         = from_option Some (Clip.favorite c) (Clips.UpdateMetaArgs.favorite args)
       ∧ Clip.sessionId c'
         = from_option Some (Clip.sessionId c) (Clips.UpdateMetaArgs.sessionId args))
    ∧ ((is_Some (Clip.angle c) → is_Some (Clip.angle c'))
       ∧ (is_Some (Clip.apparatus c) → is_Some (Clip.apparatus c'))
       ∧ (is_Some (Clip.favorite c) → is_Some (Clip.favorite c'))
       ∧ (is_Some (Clip.sessionId c) → is_Some (Clip.sessionId c')))
    ∧ (∀ j, j ≠ id → clips db' !! j = clips db !! j)
    ∧ sessions db' = sessions db.
Proof.
  intros Hok id db'. subst id db'. revert Hok. unfold Clips.updateMeta.
  destruct (Clips.not_mine _ _) eqn:Hmine; [done|]. intros _.
  apply not_mine_false in Hmine as (c & Hc & _).
  cbn [snd clips sessions]. rewrite lookup_alter_eq, Hc. cbn [fmap option_fmap option_map].
  eexists c, _. split; [done|]. split; [reflexivity|].
  destruct args as [id [tags|] [angle|] [apparatus|] [favorite|] [sessionId|]];
    cbn; (split; [done|]); (split; [done|]);
    (split; [by repeat split; try (intros [x Hx]; eauto) |]);
    (split; [|done]); intros j Hj; by apply lookup_alter_ne.
Qed.

Lemma updateMeta_writes_only_supplied_fields_witness :
  ∃ c',
    clips (Clips.updateMeta Sample.alice (Sample.retag 2 ["press"]) Sample.session_db).2
      !! 2%positive = Some c'
    ∧ Clip.objectKey c' = Sample.shared_key
    ∧ Clip.angle c' = Some side
    ∧ Clip.tags c' = ["press"].
Proof.
  destruct (updateMeta_writes_only_supplied_fields
              Sample.alice (Sample.retag 2 ["press"]) Sample.session_db eq_refl)
    as (c & c' & Hc & Hc' & (_ & Hkey & _) & (Htags & Hangle & _) & _).
  exists c'. split; [exact Hc'|].
  assert (c = Sample.filed_clip) as ->.
  { vm_compute in Hc. injection Hc as <-. reflexivity. }
  rewrite Hkey, Hangle, Htags. by vm_compute.
Defined.

(** ** Claims on object keys *)

(** C7.  [finalizeUpload] stores whatever object key the caller supplies:
    finalizing one key twice, from the empty database, leaves two clips of
    two owners with the same key, and [getPlaybackUrl], which expects a
    unique clip per owner and key, fails once one owner did it twice; a key
    whose clip was deleted is accepted again for a later clip. *)
Theorem finalizeUpload_repeats_object_keys :
  (reachable Sample.twice_db ∧ ¬ keys_unique Sample.twice_db)
  ∧ (let db := run [ CallFinalizeUpload Sample.alice (Sample.upload Sample.shared_key) 100;
                     CallFinalizeUpload Sample.alice (Sample.upload Sample.shared_key) 200 ]
                 empty_db in
     ∃ msg,
       Clips.getPlaybackUrl (λ key, key) Sample.alice Sample.shared_key db
       = Throw msg ∧ msg ≠ Clips.denied_msg)
  ∧ (let db := run Sample.reuse_calls empty_db in
     clips db !! 1%positive = None
     ∧ Clip.objectKey <$> clips db !! 2%positive = Some Sample.shared_key).
Proof.
  split; [split|split].
  - by eexists.
  - intros Huniq.
    specialize (Huniq 1%positive 2%positive
      (Clip.mk "alice" Sample.shared_key 100 1024 None None None [] None None
         (Some false) None)
      (Clip.mk "bob" Sample.shared_key 200 1024 None None None [] None None
         (Some false) None)).
    by discriminate Huniq.
  - eexists. split; [by vm_compute | done].
  - by vm_compute.
Qed.

(** Apart from that, the calls keep object keys distinct: the only way to
    a repeated key is a [finalizeUpload] with a key some clip already holds. *)
Lemma keys_unique_same_keys db db' :
  (∀ i c', clips db' !! i = Some c' →
     ∃ c, clips db !! i = Some c ∧ Clip.objectKey c = Clip.objectKey c') →
  keys_unique db → keys_unique db'.
Proof.
  intros Hsub Huniq i j ci cj Hi Hj Hkey.
  destruct (Hsub i ci Hi) as (ci0 & Hi0 & Ei), (Hsub j cj Hj) as (cj0 & Hj0 & Ej).
  apply (Huniq i j ci0 cj0 Hi0 Hj0). congruence.
Qed.

Lemma step_keeps_keys_unique db call :
  keys_unique db →
  (∀ auth args now, call = CallFinalizeUpload auth args now →
     ∀ i ci, clips db !! i = Some ci →
       Clip.objectKey ci ≠ Upload.FinalizeArgs.objectKey args) →
  keys_unique (step db call).
Proof.
  intros Huniq Hfresh.
  destruct call as [auth ct ext size now rnd | auth args now | auth args
                   | auth id | auth name now | auth id name | auth id];
    cbn [step].
  - unfold Upload.requestUpload.
    destruct (JS.lt _ _); [done|]. by destruct (negb _).
  - unfold Upload.finalizeUpload, insert_clip.
    destruct (_ <? _); [done|]. destruct (is_users_id _); [|done]. cbn [snd].
    intros i j ci cj. cbn [clips]. rewrite !lookup_insert.
    specialize (Hfresh auth args now eq_refl).
    repeat case_decide; intros Hi Hj Hkey; simplify_eq; try done.
    + exfalso. eapply Hfresh; [exact Hj | by symmetry].
    + exfalso. eapply Hfresh; [exact Hi | exact Hkey].
    + by eapply Huniq.
  - unfold Clips.updateMeta. destruct (Clips.not_mine _ _); [done|]. cbn [snd].
    eapply keys_unique_same_keys; [|done]. cbn [clips]. intros i c'.
    rewrite lookup_alter. case_decide as Hid; [subst i | by eauto].
    intros (c & Hc & ->)%fmap_Some. exists c. split; [exact Hc | reflexivity].
  - unfold Clips.deleteClip. destruct (Clips.not_mine _ _); [done|]. cbn [snd].
    eapply keys_unique_same_keys; [|done]. cbn [clips]. intros i c'.
    rewrite lookup_delete_Some. intros [_ Hc]. eauto.
  - unfold Sessions.create, insert_session. by destruct (is_users_id _).
  - unfold Sessions.rename. by destruct (Sessions.not_mine _ _).
  - unfold Sessions.deleteSession. by destruct (Sessions.not_mine _ _).
Qed.

(** * Further properties of the code *)

(** ** The shape of tokens *)

Section token_shape.

Lemma all_chars_app p (a b : string) :
  Spec.all_chars p (a ++ b) = Spec.all_chars p a && Spec.all_chars p b.
Proof.
  induction a as [|c a IH]; [done|].
  rewrite string_app_cons. simpl. by rewrite IH, andb_assoc.
Qed.

Lemma words_from_shape p s : ∀ cur t,
  Spec.all_chars p cur = true →
  Spec.all_chars (λ c, JS.is_space c || p c) s = true →
  t ∈ Spec.words_from cur s →
  t ≠ "" ∧ Spec.all_chars p t = true.
Proof.
  induction s as [|c r IH]; intros cur t Hcur Hs; simpl in *.
  - destruct (JS.is_empty cur) eqn:E; [by intros ?%elem_of_nil|].
    intros ->%list_elem_of_singleton. split; [|done]. by destruct cur.
  - apply andb_prop in Hs as [Hc Hr]. destruct (JS.is_space c); simpl in Hc.
    + destruct (JS.is_empty cur) eqn:E.
      * by apply IH.
      * intros [->|Ht]%elem_of_cons; [|by apply (IH "")].
        split; [|done]. by destruct cur.
    + apply IH; [|done]. rewrite all_chars_app. simpl. by rewrite Hcur, Hc.
Qed.

(** What [replace] leaves of a lower-cased character. *)
Lemma replaced_char_shape c :
  let l := JS.lower_char c in
  let r := if negb (JS.is_word l || JS.is_space l) then " "%char else l in
  JS.is_space r || Shape.is_token_char r = true.
Proof. destruct c as [[] [] [] [] [] [] [] []]; by vm_compute. Qed.

Lemma replaced_text_shape s :
  Spec.all_chars (λ c, JS.is_space c || Shape.is_token_char c)
    (Search.replace_punct (JS.toLowerCase s)) = true.
Proof.
  unfold Search.replace_punct, JS.toLowerCase.
  induction s as [|c r IH]; simpl; [done|].
  rewrite IH, andb_true_r. apply replaced_char_shape.
Qed.

Lemma token_char_fixed c :
  Shape.is_token_char c = true →
  JS.lower_char c = c ∧ JS.is_word c = true ∧ JS.is_space c = false.
Proof. destruct c as [[] [] [] [] [] [] [] []]; by vm_compute. Qed.

Lemma smap_fixed (q : ascii → bool) f s :
  (∀ c, q c = true → f c = c) → Spec.all_chars q s = true → JS.smap f s = s.
Proof.
  intros Hf. induction s as [|c r IH]; simpl; [done|].
  intros [Hc Hr]%andb_prop. by rewrite (Hf c Hc), IH.
Qed.

Lemma words_from_one_word s : ∀ cur,
  Spec.all_chars (λ c, negb (JS.is_space c)) s = true →
  JS.is_empty (cur ++ s) = false →
  Spec.words_from cur s = [(cur ++ s)%string].
Proof.
  induction s as [|c r IH]; intros cur Hs Hne; simpl in *.
  - rewrite string_app_nil_r in *. by rewrite Hne.
  - apply andb_prop in Hs as [Hc%negb_true_iff Hr]. rewrite Hc.
    rewrite IH; [|done|].
    + by rewrite string_app_assoc.
    + rewrite string_app_assoc. by destruct cur.
Qed.

Lemma tokenize_token t : Shape.is_token t = true → Search.tokenize t = [t].
Proof.
  intros [Hne%negb_true_iff Hchars]%andb_prop. rewrite tokenize_words.
  unfold JS.toLowerCase, Search.replace_punct.
  rewrite (smap_fixed Shape.is_token_char JS.lower_char t); [|by intros c []%token_char_fixed|done].
  rewrite (smap_fixed Shape.is_token_char _ t); [|intros c (_ & -> & _)%token_char_fixed; done|done].
  apply (words_from_one_word t ""); [|done].
  eapply all_chars_impl; [|exact Hchars].
  intros c (_ & _ & ->)%token_char_fixed. done.
Qed.

End token_shape.

Lemma tokenize_gives_tokens text t :
  t ∈ Search.tokenize text → Shape.is_token t = true.
Proof.
  rewrite tokenize_words. intros Ht.
  destruct (words_from_shape Shape.is_token_char _ "" t eq_refl
              (replaced_text_shape text) Ht) as [Hne Hchars].
  unfold Shape.is_token. rewrite Hchars, andb_true_r. by destruct t.
Qed.

(** X1.  Every token [tokenize] returns is a non-empty string of digits,
    lower-case letters and underscores. *)
Theorem tokens_are_lowercase_words text t :
  t ∈ Search.tokenize text → Shape.is_token t = true.
Proof.
  rewrite tokenize_words. intros Ht. unfold Shape.is_token.
  destruct (words_from_shape Shape.is_token_char
              (Search.replace_punct (JS.toLowerCase text)) "" t eq_refl
              (replaced_text_shape text) Ht) as [Hne ->].
  rewrite andb_true_r. by destruct t.
Qed.

Lemma tokens_are_lowercase_words_witness : Shape.is_token "world" = true.
Proof.
  apply (tokens_are_lowercase_words "Hello, World!" "world").
  vm_compute. apply list_elem_of_further, list_elem_of_here.
Defined.

(** X2.  Tokenizing is stable: the tokens of a text, joined by spaces and
    tokenized again, are the same tokens in the same order. *)
Theorem tokenize_of_joined_tokens text :
  Search.tokenize (JS.join " " (Search.tokenize text)) = Search.tokenize text.
Proof.
  rewrite tokenize_join.
  assert (Forall (λ t, Shape.is_token t = true) (Search.tokenize text)) as Hall.
  { apply Forall_forall. intros t. apply tokenize_gives_tokens. }
  induction Hall as [|t l Ht Hl IH]; [done|].
  cbn [fmap list_fmap concat]. by rewrite (tokenize_token t Ht), IH.
Qed.

(** ** Search: short-circuit, case, own tags *)

Section search_more.

Lemma smap_is_empty f s : JS.is_empty (JS.smap f s) = JS.is_empty s.
Proof. by destruct s. Qed.

Lemma trim_start_smap f s :
  (∀ c, JS.is_space (f c) = JS.is_space c) →
  JS.trim_start (JS.smap f s) = JS.smap f (JS.trim_start s).
Proof.
  intros Hf. induction s as [|c r IH]; simpl; [done|].
  rewrite Hf. by destruct (JS.is_space c).
Qed.

Lemma trim_end_smap f s :
  (∀ c, JS.is_space (f c) = JS.is_space c) →
  JS.trim_end (JS.smap f s) = JS.smap f (JS.trim_end s).
Proof.
  intros Hf. induction s as [|c r IH]; simpl; [done|].
  rewrite IH, Hf. destruct (JS.trim_end r); simpl; [|done].
  by destruct (JS.is_space c).
Qed.

Lemma trim_lower s : JS.trim (JS.toLowerCase s) = JS.toLowerCase (JS.trim s).
Proof.
  unfold JS.trim, JS.toLowerCase.
  rewrite trim_start_smap, trim_end_smap; auto using lower_char_space.
Qed.

Lemma includes_refl s : JS.includes s s = true.
Proof. apply includes_spec. exists ""%string, ""%string. by rewrite string_app_nil_r. Qed.

Lemma elem_of_searchTokens clip s :
  s ∈ Search.tokenize (JS.toLowerCase (JS.join " " (Search.searchableFields clip)))
  ↔ ∃ field, field ∈ Search.searchableFields clip ∧ s ∈ Search.tokenize field.
Proof.
  rewrite searchTokens_fields, list_elem_of_In, in_concat. split.
  - intros (l & (field & -> & Hf)%list_elem_of_In%list_elem_of_fmap
              & Hs%list_elem_of_In).
    eauto.
  - intros (field & Hf & Hs). exists (Search.tokenize field).
    split; [|by apply list_elem_of_In].
    by apply list_elem_of_In, list_elem_of_fmap_2.
Qed.

(** A clip matches as soon as every query token is among its search
    tokens, and matching only grows with the search tokens. *)
Lemma matchesQuery_intro clip queryTokens :
  (∀ t, t ∈ queryTokens →
     ∃ field, field ∈ Search.searchableFields clip ∧ t ∈ Search.tokenize field) →
  Search.matchesQuery clip queryTokens = true.
Proof.
  intros H. unfold Search.matchesQuery. apply forallb_forall.
  intros t Ht%list_elem_of_In. apply existsb_exists. exists t. split.
  - apply list_elem_of_In, elem_of_searchTokens. auto.
  - by rewrite includes_refl.
Qed.

Lemma matchesQuery_mono clip clip' queryTokens :
  (∀ field, field ∈ Search.searchableFields clip →
     field ∈ Search.searchableFields clip') →
  Search.matchesQuery clip queryTokens = true →
  Search.matchesQuery clip' queryTokens = true.
Proof.
  intros Hsub. unfold Search.matchesQuery. rewrite !forallb_forall.
  intros H t Ht. apply H in Ht. apply existsb_exists in Ht as (s & Hs & Hst).
  apply existsb_exists. exists s. split; [|done].
  apply list_elem_of_In, elem_of_searchTokens.
  apply list_elem_of_In, elem_of_searchTokens in Hs as (field & Hf & Hs). eauto.
Qed.

End search_more.

(** X3.  A query text without any token (empty, white space, punctuation
    only) is answered with the empty, final result, whatever the database,
    the limit and the cursor are. *)
Theorem query_without_token_is_empty auth q limit cursor db :
  Search.tokenize q = [] →
  Search.query auth q limit cursor db = Search.mkQueryResult [] None true.
Proof.
  intros Hq. unfold Search.query. destruct (negb _); [done|]. by rewrite Hq.
Qed.

Lemma query_without_token_is_empty_witness :
  Search.query Sample.alice "  ?! " (Some (JS.Num 5)) (Some "1") Sample.three_db
  = Search.mkQueryResult [] None true.
Proof. apply query_without_token_is_empty. reflexivity. Defined.

(** X4.  Search does not depend on the case of the query text: the query
    in lower case gets the same answer. *)
Theorem query_ignores_case auth q limit cursor db :
  Search.query auth (JS.toLowerCase q) limit cursor db
  = Search.query auth q limit cursor db.
Proof.
  unfold Search.query. rewrite trim_lower, tokenize_lower.
  unfold JS.truthy_str, JS.toLowerCase. by rewrite smap_is_empty.
Qed.

(** X5.  A clip is found by each of its own tags and by its object key:
    for a clip of the caller, searching for the text of one of its tags, or
    for its key, puts the clip into the sequence [query] paginates (when
    that text has a token at all). *)
Theorem clip_is_found_by_its_tags_and_key auth db id clip text :
  clips db !! id = Some clip →
  Clip.userId clip = getCurrentUserId auth →
  text ∈ Clip.tags clip ∨ text = Clip.objectKey clip →
  Search.tokenize text ≠ [] →
  (id, clip) ∈ Spec.search_sequence auth text db.
Proof.
  intros Hdb Hown Htext Htok. unfold Spec.search_sequence.
  destruct (Search.tokenize text) as [|t ts] eqn:E; [done|]. rewrite <- E.
  apply elem_of_matchingClips. split; [done|]. apply matchesQuery_intro.
  intros t' Ht'. exists text. split; [|done].
  unfold Search.searchableFields. apply elem_of_app.
  destruct Htext as [Htag | ->]; [by left | right; apply list_elem_of_here].
Qed.

Lemma clip_is_found_by_its_tags_and_key_witness :
  (1%positive, Sample.floor_clip)
    ∈ Spec.search_sequence Sample.alice "floor" Sample.floor_db.
Proof.
  apply clip_is_found_by_its_tags_and_key.
  - by vm_compute.
  - reflexivity.
  - left. apply list_elem_of_here.
  - by vm_compute.
Defined.

(** X6.  Adding tags never loses a match: a clip that matches some query
    tokens still matches them after its tag list is replaced by one that
    contains every old tag. *)
Theorem retagging_with_more_tags_keeps_matches clip tags queryTokens :
  (∀ t, t ∈ Clip.tags clip → t ∈ tags) →
  Search.matchesQuery clip queryTokens = true →
  Search.matchesQuery
    (Clips.patch_clip (Clips.Updates.set_tags tags Clips.Updates.empty) clip)
    queryTokens = true.
Proof.
  intros Hsub. apply matchesQuery_mono. intros field.
  unfold Search.searchableFields. cbn. rewrite !elem_of_app.
  intros [Ht|Hrest]; [left; auto | by right].
Qed.

Lemma retagging_with_more_tags_keeps_matches_witness :
  Search.matchesQuery
    (Clips.patch_clip
       (Clips.Updates.set_tags ["press"; "floor"] Clips.Updates.empty)
       Sample.floor_clip)
    ["floor"] = true.
Proof.
  apply retagging_with_more_tags_keeps_matches.
  - intros t ->%list_elem_of_singleton. apply list_elem_of_further, list_elem_of_here.
  - reflexivity.
Defined.

(** ** Pages, for any cursor and any page size *)

Section pages.

Context {A : Type}.
Implicit Types (l : list A) (a b : JS.num).

Lemma slice_sublist l a b : JS.slice l a b `sublist_of` l.
Proof.
  unfold JS.slice. etransitivity; [apply sublist_take | apply sublist_drop].
Qed.

(** A slice is a run of consecutive elements. *)
Lemma slice_run l a b : ∃ before after, l = (before ++ JS.slice l a b ++ after)%list.
Proof.
  unfold JS.slice.
  set (k := Z.to_nat (JS.rel_index (Z.of_nat (length l)) a)).
  set (m := Z.to_nat _).
  exists (take k l), (drop m (drop k l)). by rewrite !take_drop.
Qed.

Lemma slice_sorted (R : relation A) l a b :
  StronglySorted R l → StronglySorted R (JS.slice l a b).
Proof.
  intros Hl. unfold JS.slice.
  set (k := Z.to_nat (JS.rel_index (Z.of_nat (length l)) a)).
  set (m := Z.to_nat _).
  assert (StronglySorted R (drop k l)) as Hd.
  { rewrite <- (take_drop k l) in Hl. by apply StronglySorted_app_1_r in Hl. }
  rewrite <- (take_drop m (drop k l)) in Hd. by apply StronglySorted_app_1_l in Hd.
Qed.

Lemma slice_length l a n :
  0 <= n → (length (JS.slice l a (JS.add a (JS.Num n))) ≤ Z.to_nat n)%nat.
Proof.
  intros Hn. unfold JS.slice. rewrite length_take.
  destruct a as [|k]; cbn [JS.add JS.rel_index]; [simpl; lia|].
  destruct (Z.ltb_spec k 0), (Z.ltb_spec (k + n) 0); lia.
Qed.

Lemma slice_nil a b : JS.slice (@nil A) a b = [].
Proof. unfold JS.slice. by rewrite drop_nil, take_nil. Qed.

End pages.

Lemma elem_of_search_sequence auth q db (d : ClipDoc) :
  d ∈ Spec.search_sequence auth q db →
  (clips db !! d.1 = Some d.2 ∧ Clip.userId d.2 = getCurrentUserId auth)
  ∧ Search.matchesQuery d.2 (Search.tokenize q) = true.
Proof.
  unfold Spec.search_sequence.
  destruct (Search.tokenize q) as [|t ts] eqn:E; [by intros ?%elem_of_nil|].
  by intros ?%elem_of_matchingClips.
Qed.

Lemma search_sequence_sorted auth q db :
  StronglySorted newer_first (Spec.search_sequence auth q db).
Proof.
  unfold Spec.search_sequence, Search.matchingClips.
  destruct (Search.tokenize q); [constructor|].
  apply js_filter_sorted, order_desc_sorted.
Qed.

(** The page of [query] is always a slice of the sequence. *)
Lemma query_results_slice auth q limit cursor db :
  ∃ a,
    Search.results (Search.query auth q limit cursor db)
    = JS.slice (Spec.search_sequence auth q db) a
        (JS.add a (Shape.effective_limit limit)).
Proof.
  unfold Search.query, Spec.search_sequence, Shape.effective_limit.
  destruct (negb (JS.truthy_str (JS.trim q))) eqn:Htrim.
  - apply negb_true_iff in Htrim. unfold JS.truthy_str in Htrim.
    apply negb_false_iff, is_empty_true in Htrim.
    rewrite (trim_empty_no_token q Htrim). exists (JS.Num 0).
    by rewrite slice_nil.
  - destruct (Search.tokenize q) as [|t ts];
      [exists (JS.Num 0); by rewrite slice_nil|].
    cbn [length Nat.eqb Search.results]. eauto.
Qed.

(** X7.  Whatever the cursor and [numItems] are (also unreadable, negative
    or [NaN]), the page [list] returns is a run of consecutive documents of
    the filtered sequence, which is some documents, then the page, then the
    remaining documents: every document on the page is a stored clip of the
    caller that passes the filters, the page is ordered by [createdAt]
    descending, it holds at most [numItems] documents when [numItems] is
    not negative, and the next cursor is null exactly when [isDone]. *)
Theorem list_page_stays_within_results auth args db :
  let r := Clips.list auth args db in
  (∃ before after,
     Clips.results auth args db = (before ++ Clips.page r ++ after)%list)
  ∧ (∀ d : ClipDoc, d ∈ Clips.page r →
       (clips db !! d.1 = Some d.2 ∧ Clip.userId d.2 = getCurrentUserId auth)
       ∧ Spec.passes_filter args d.2)
  ∧ StronglySorted newer_first (Clips.page r)
  ∧ (∀ n, Clips.PaginationOpts.numItems (Clips.ListArgs.paginationOpts args)
            = JS.Num n → 0 <= n → (length (Clips.page r) ≤ Z.to_nat n)%nat)
  ∧ (Clips.isDone r = true ↔ Clips.continueCursor r = None).
Proof.
  intros r. subst r. unfold Clips.list.
  cbn [Clips.page Clips.isDone Clips.continueCursor].
  split; [apply slice_run|]. split; [|split; [|split]].
  - intros d Hd. apply elem_of_results.
    eapply sublist_subseteq; [apply slice_sublist | exact Hd].
  - apply slice_sorted, results_sorted.
  - intros n -> Hn. by apply slice_length.
  - by destruct (JS.lt _ _).
Qed.

(** X8.  The same for [query], for every limit and cursor: the results are
    a run of consecutive documents of the matching sequence, which is some
    documents, then the results, then the remaining documents; all of them
    are clips of the caller that match the query, ordered by [createdAt]
    descending; when the limit in force (the supplied one, or 20 when it is
    absent, 0 or [NaN]) is not negative there are at most that many; and
    the cursor is null exactly when [isDone]. *)
Theorem query_page_stays_within_matches auth q limit cursor db :
  let r := Search.query auth q limit cursor db in
  (∃ before after,
     Spec.search_sequence auth q db = (before ++ Search.results r ++ after)%list)
  ∧ (∀ d : ClipDoc, d ∈ Search.results r →
       (clips db !! d.1 = Some d.2 ∧ Clip.userId d.2 = getCurrentUserId auth)
       ∧ Search.matchesQuery d.2 (Search.tokenize q) = true)
  ∧ StronglySorted newer_first (Search.results r)
  ∧ (∀ n, Shape.effective_limit limit = JS.Num n → 0 <= n →
       (length (Search.results r) ≤ Z.to_nat n)%nat)
  ∧ (Search.isDone r = true ↔ Search.cursor r = None).
Proof.
  intros r. subst r.
  destruct (query_results_slice auth q limit cursor db) as [a Ha].
  rewrite Ha. split; [apply slice_run|]. split; [|split; [|split]].
  - intros d Hd. apply elem_of_search_sequence.
    eapply sublist_subseteq; [apply slice_sublist | exact Hd].
  - apply slice_sorted, search_sequence_sorted.
  - intros n -> Hn. by apply slice_length.
  - unfold Search.query. destruct (negb _); [done|].
    destruct (_ =? _)%nat; [done|]. cbn [Search.isDone Search.cursor].
    by destruct (JS.lt _ _).
Qed.

Lemma parseInt_letter_first c r :
  JS.is_letter c = true → JS.parseInt (String c r) = JS.NaN.
Proof.
  destruct c as [[] [] [] [] [] [] [] []]; intros Hc;
    first [by vm_compute in Hc | reflexivity].
Qed.

(** X9.  A cursor that starts with a letter is not rejected and not read as
    offset 0: for every database and every other argument, [list] and
    [query] answer it with an empty page marked as the last one. *)
Theorem cursor_starting_with_a_letter_ends_paging auth args q limit db c rest :
  JS.is_letter c = true →
  Clips.list auth (with_cursor args (Some (String c rest))) db
    = Clips.mkListResult [] true None
  ∧ Search.query auth q limit (Some (String c rest)) db
    = Search.mkQueryResult [] None true.
Proof.
  intros Hc. pose proof (parseInt_letter_first c rest Hc) as Hnan. split.
  - by apply list_unreadable_cursor.
  - by apply query_unreadable_cursor.
Qed.

Lemma cursor_starting_with_a_letter_ends_paging_witness :
  Clips.list Sample.alice (with_cursor (Sample.pages_of 2) (Some "next")) Sample.three_db
    = Clips.mkListResult [] true None
  ∧ Search.query Sample.alice "mp4" None (Some "next") Sample.three_db
    = Search.mkQueryResult [] None true.
Proof.
  apply (cursor_starting_with_a_letter_ends_paging
           Sample.alice (Sample.pages_of 2) "mp4" None Sample.three_db "n" "ext").
  reflexivity.
Defined.

(** X10.  With [numItems = 0] paging makes no progress: when the filtered
    sequence is not empty, every page is empty, never marked as done, and
    carries the cursor "0", so a client that follows the cursors never
    reaches [isDone], however many requests it makes. *)
Theorem zero_page_size_never_finishes auth args db :
  Clips.PaginationOpts.numItems (Clips.ListArgs.paginationOpts args) = JS.Num 0 →
  Clips.results auth args db ≠ [] →
  Clips.list auth (with_cursor args None) db = Clips.mkListResult [] false (Some "0")
  ∧ Clips.list auth (with_cursor args (Some "0")) db
    = Clips.mkListResult [] false (Some "0")
  ∧ ∀ fuel, follow (fetch_list auth args db) fuel None = None.
Proof.
  intros Hn Hne.
  assert (∀ cursor, Spec.cursor_offset cursor 0 →
            fetch_list auth args db cursor = ([], false, Some "0")) as Hfetch.
  { intros cursor Hc. rewrite (list_window auth args db cursor 0 0 Hn Hc).
    unfold Spec.window. rewrite take_0.
    rewrite bool_decide_eq_false_2; [done|].
    destruct (Clips.results auth args db); simpl; [done | lia]. }
  assert (∀ cursor, Spec.cursor_offset cursor 0 →
            Clips.list auth (with_cursor args cursor) db
            = Clips.mkListResult [] false (Some "0")) as Hlist.
  { intros cursor Hc. specialize (Hfetch cursor Hc). unfold fetch_list in Hfetch.
    destruct (Clips.list _ _ _) as [p d c]. simpl in Hfetch. by simplify_eq. }
  split; [by apply Hlist|]. split; [by apply Hlist|].
  intros fuel. generalize (eq_refl : Spec.cursor_offset None 0).
  generalize (@None string). induction fuel as [|fuel IH]; intros cursor Hc; [done|].
  cbn [follow]. rewrite (Hfetch cursor Hc). by rewrite (IH (Some "0") eq_refl).
Qed.

Lemma zero_page_size_never_finishes_witness :
  follow (fetch_list Sample.alice (Sample.pages_of 0) Sample.three_db) 1000 None = None.
Proof.
  apply (proj2 (proj2 (zero_page_size_never_finishes
           Sample.alice (Sample.pages_of 0) Sample.three_db eq_refl
           ltac:(by vm_compute)))).
Defined.

Lemma list_page_stays_within_results_witness :
  (length (Clips.page (Clips.list Sample.alice
     (with_cursor (Sample.pages_of 2) (Some "-1")) Sample.three_db)) ≤ 2)%nat.
Proof.
  apply (proj1 (proj2 (proj2 (proj2 (list_page_stays_within_results
           Sample.alice (with_cursor (Sample.pages_of 2) (Some "-1"))
           Sample.three_db)))) 2 eq_refl).
  lia.
Defined.

Lemma query_page_stays_within_matches_witness :
  (length (Search.results (Search.query Sample.alice "mp4" None (Some "-1")
     Sample.three_db)) ≤ 20)%nat.
Proof.
  apply (proj1 (proj2 (proj2 (proj2 (query_page_stays_within_matches
           Sample.alice "mp4" None (Some "-1") Sample.three_db)))) 20 eq_refl).
  lia.
Defined.

(** ** Reading one clip *)

Section one_clip.

Lemma not_mine_owned (clip : Clip.t) userId :
  Clip.userId clip = userId → Clips.not_mine (Some clip) userId = false.
Proof. intros <-. simpl. by rewrite String.eqb_refl. Qed.

Lemma only_element {A} (l : list A) a :
  NoDup l → a ∈ l → (∀ x, x ∈ l → x = a) → l = [a].
Proof.
  intros Hnd Ha Hall. destruct l as [|x [|y l]].
  - by apply elem_of_nil in Ha.
  - f_equal. apply Hall, list_elem_of_here.
  - exfalso. assert (x = a) as -> by apply Hall, list_elem_of_here.
    assert (y = a) as -> by apply Hall, list_elem_of_further, list_elem_of_here.
    apply NoDup_cons in Hnd as [Hnot _]. apply Hnot, list_elem_of_here.
Qed.

(** The documents [getPlaybackUrl] selects. *)
Lemma elem_of_playback_candidates userId key db (d : ClipDoc) :
  d ∈ filter (λ d : ClipDoc, Clip.userId d.2 = userId ∧ Clip.objectKey d.2 = key)
        (map_to_list (clips db))
  ↔ clips db !! d.1 = Some d.2 ∧ Clip.userId d.2 = userId ∧ Clip.objectKey d.2 = key.
Proof. rewrite list_elem_of_filter, elem_of_map_to_list'. tauto. Qed.

Lemma get_owned auth id db clip :
  clips db !! id = Some clip → Clip.userId clip = getCurrentUserId auth →
  Clips.get auth id db = Ok clip.
Proof.
  intros Hc Hown. unfold Clips.get. by rewrite Hc, (not_mine_owned clip _ Hown).
Qed.

End one_clip.

(** X11.  [get] returns a clip exactly when it is stored under the id and
    belongs to the caller, and then it returns the stored document. *)
Theorem get_returns_own_clips_only auth id db clip :
  Clips.get auth id db = Ok clip
  ↔ clips db !! id = Some clip ∧ Clip.userId clip = getCurrentUserId auth.
Proof.
  unfold Clips.get. split.
  - destruct (Clips.not_mine _ _) eqn:Hmine; [done|].
    apply not_mine_false in Hmine as (c & Hc & Hown). rewrite Hc.
    by intros [= <-].
  - intros [Hc Hown]. fold (Clips.get auth id db). by apply get_owned.
Qed.

(** X12.  [getPlaybackUrl] signs a URL only for a key under which the
    caller has a clip: a URL that comes back is the signed key and the
    database holds a clip of the caller with that key; when the caller has
    no clip with the key (also when another owner has one) the call fails
    with "Clip not found or access denied". *)
Theorem playback_url_needs_an_own_clip presign auth key db :
  (∀ url, Clips.getPlaybackUrl presign auth key db = Ok url →
     url = presign key
     ∧ ∃ id clip, clips db !! id = Some clip
         ∧ Clip.userId clip = getCurrentUserId auth ∧ Clip.objectKey clip = key)
  ∧ ((∀ id clip, clips db !! id = Some clip →
        Clip.userId clip = getCurrentUserId auth → Clip.objectKey clip ≠ key) →
     Clips.getPlaybackUrl presign auth key db = Throw "Clip not found or access denied").
Proof.
  unfold Clips.getPlaybackUrl. split.
  - intros url.
    destruct (filter _ _) as [|d [|d' l]] eqn:E; cbn [Clips.unique]; [done| |done].
    intros [= <-]. split; [done|]. exists d.1, d.2.
    apply elem_of_playback_candidates. rewrite E. apply list_elem_of_here.
  - intros Hnone.
    destruct (filter _ _) as [|d l] eqn:E; [done|]. exfalso.
    assert (d ∈ d :: l) as Hd by apply list_elem_of_here.
    rewrite <- E in Hd. apply elem_of_playback_candidates in Hd as (Hdb & Hown & Hkey).
    by apply (Hnone d.1 d.2).
Qed.

Lemma playback_url_needs_an_own_clip_witness :
  Clips.getPlaybackUrl (λ key, key) Sample.bob Sample.floor_key Sample.floor_db
  = Throw "Clip not found or access denied".
Proof.
  apply (proj2 (playback_url_needs_an_own_clip
           (λ key, key) Sample.bob Sample.floor_key Sample.floor_db)).
  intros id clip Hdb Hown.
  destruct id as [id|id|]; vm_compute in Hdb; try done.
  injection Hdb as <-. by vm_compute in Hown.
Defined.

(** ** Uploading *)

Lemma finalizeUpload_accepted auth args now db :
  Upload.FinalizeArgs.bytes args <= Upload.MAX_FILE_SIZE →
  is_users_id (getCurrentUserId auth) = true →
  Upload.finalizeUpload auth args now db
  = (Ok (next_id db),
     mkDb (<[next_id db := Shape.fresh_clip auth args now]> (clips db))
       (sessions db) (Pos.succ (next_id db))).
Proof.
  intros Hsize%Z.ltb_ge Hid. unfold Upload.finalizeUpload, insert_clip.
  rewrite Hsize. cbn [Clip.userId]. by rewrite Hid.
Qed.

(** X13.  [finalizeUpload] stores nothing and throws when the size is above
    500 MB, and when the caller's id is not an id of the users table, as
    for every unauthenticated caller, whose id is the placeholder
    [DEV_USER_ID].  Otherwise it inserts one clip: the caller is its owner,
    the key, size, duration and dimensions are the supplied ones,
    [createdAt] is the time of the call, the tags are empty, [favorite] is
    [false], angle, apparatus and session are absent; every document under
    another id and every session stays, and [get] with the returned id
    gives the new clip back. *)
Theorem finalizeUpload_inserts_a_plain_clip auth args now db :
  (Upload.MAX_FILE_SIZE < Upload.FinalizeArgs.bytes args →
     ∃ msg, Upload.finalizeUpload auth args now db = (Throw msg, db))
  ∧ (is_users_id (getCurrentUserId auth) = false →
     ∃ msg, Upload.finalizeUpload auth args now db = (Throw msg, db))
  ∧ (∃ msg, Upload.finalizeUpload None args now db = (Throw msg, db))
  ∧ (Upload.FinalizeArgs.bytes args <= Upload.MAX_FILE_SIZE →
     is_users_id (getCurrentUserId auth) = true →
     ∃ id db',
       Upload.finalizeUpload auth args now db = (Ok id, db')
       ∧ clips db' !! id = Some (Shape.fresh_clip auth args now)
       ∧ (∀ j, j ≠ id → clips db' !! j = clips db !! j)
       ∧ sessions db' = sessions db
       ∧ Clips.get auth id db' = Ok (Shape.fresh_clip auth args now)).
Proof.
  assert (∀ auth', is_users_id (getCurrentUserId auth') = false →
            ∃ msg, Upload.finalizeUpload auth' args now db = (Throw msg, db)) as Hno.
  { intros auth' Hid. unfold Upload.finalizeUpload, insert_clip.
    destruct (_ <? _); [by eauto|]. cbn [Clip.userId]. rewrite Hid. by eauto. }
  split; [|split; [|split]].
  - intros Hsize%Z.ltb_lt. unfold Upload.finalizeUpload. rewrite Hsize. by eauto.
  - apply Hno.
  - by apply Hno.
  - intros Hsize Hid. rewrite (finalizeUpload_accepted auth args now db Hsize Hid).
    eexists _, _. split; [reflexivity|]. cbn [clips sessions].
    split; [apply lookup_insert_eq|]. split; [|split; [done|]].
    + intros j Hj. by apply lookup_insert_ne.
    + apply get_owned; [|done]. cbn [clips]. by rewrite lookup_insert_eq.
Qed.

Lemma finalizeUpload_inserts_a_plain_clip_witness :
  ∃ id db',
    Upload.finalizeUpload Sample.bob (Sample.upload "clips/bob/9-z.mp4") 900
      Sample.three_db = (Ok id, db')
    ∧ Clips.get Sample.bob id db'
      = Ok (Shape.fresh_clip Sample.bob (Sample.upload "clips/bob/9-z.mp4") 900).
Proof.
  destruct (proj2 (proj2 (proj2 (finalizeUpload_inserts_a_plain_clip
              Sample.bob (Sample.upload "clips/bob/9-z.mp4") 900 Sample.three_db))))
    as (id & db' & E & _ & _ & _ & Hget).
  - by vm_compute.
  - reflexivity.
  - exists id, db'. by split.
Defined.

(** X14.  Finalizing a key makes it playable for an authenticated caller:
    when the caller's id is an id of the users table, the caller has no
    clip with the key yet and the size is within the limit,
    [getPlaybackUrl] for that key succeeds right after [finalizeUpload] and
    returns the signed key; that another owner holds the key does not
    matter. *)
Theorem finalized_key_is_playable presign auth args now db :
  is_users_id (getCurrentUserId auth) = true →
  Upload.FinalizeArgs.bytes args <= Upload.MAX_FILE_SIZE →
  (∀ id clip, clips db !! id = Some clip →
     Clip.userId clip = getCurrentUserId auth →
     Clip.objectKey clip ≠ Upload.FinalizeArgs.objectKey args) →
  Clips.getPlaybackUrl presign auth (Upload.FinalizeArgs.objectKey args)
    (Upload.finalizeUpload auth args now db).2
  = Ok (presign (Upload.FinalizeArgs.objectKey args)).
Proof.
  intros Hid Hsize Hnone.
  rewrite (finalizeUpload_accepted auth args now db Hsize Hid). cbn [snd].
  unfold Clips.getPlaybackUrl.
  rewrite (only_element _ (next_id db, Shape.fresh_clip auth args now)); [done|..].
  - apply NoDup_filter, NoDup_map_to_list.
  - apply elem_of_playback_candidates. cbn [clips fst snd].
    by rewrite lookup_insert_eq.
  - intros [id clip] (Hdb & Hown & Hkey)%elem_of_playback_candidates.
    cbn [clips fst snd] in *. rewrite lookup_insert in Hdb.
    case_decide as Hsame; [by simplify_eq|].
    by destruct (Hnone id clip Hdb Hown).
Qed.

Lemma finalized_key_is_playable_witness :
  Clips.getPlaybackUrl (λ key, key) Sample.bob Sample.floor_key
    (Upload.finalizeUpload Sample.bob (Sample.upload Sample.floor_key) 200
       Sample.floor_db).2
  = Ok Sample.floor_key.
Proof.
  apply (finalized_key_is_playable (λ key, key) Sample.bob
           (Sample.upload Sample.floor_key) 200 Sample.floor_db).
  - reflexivity.
  - by vm_compute.
  - intros id clip Hdb Hown.
    destruct id as [id|id|]; vm_compute in Hdb; try done.
    injection Hdb as <-. by vm_compute in Hown.
Defined.

Lemma size_check_spec size :
  JS.lt (JS.Num Upload.MAX_FILE_SIZE) size = false ↔ Shape.size_passes size.
Proof. destruct size as [|n]; cbn; [done|]. by rewrite Z.ltb_ge. Qed.

(** X15.  [requestUpload] follows what [getUploadLimits] advertises: it
    succeeds iff the size is not greater than [maxFileSizeBytes] (a [NaN]
    size is not, and passes the check) and the content type is one of
    [allowedMimeTypes]; the key it hands out is
    "clips/<user>/<time>-<random>.<ext>", with the URL signed for that key.
    It never writes to the database. *)
Theorem requestUpload_follows_the_limits presign auth contentType ext size now random db :
  let limits := Upload.getUploadLimits in
  let key := ("clips/" ++ getCurrentUserId auth ++ "/" ++ JS.toString (JS.Num now)
              ++ "-" ++ random ++ "." ++ ext)%string in
  let r := Upload.requestUpload presign auth contentType ext size now random db in
  r.2 = db
  ∧ (Shape.size_passes size ∧ contentType ∈ Upload.allowedMimeTypes limits →
     r.1 = Ok (Upload.mkUploadTicket key (presign key)))
  ∧ (¬ (Shape.size_passes size ∧ contentType ∈ Upload.allowedMimeTypes limits) →
     ∃ msg, r.1 = Throw msg).
Proof.
  intros limits key r. subst limits key r. unfold Upload.requestUpload.
  cbn [Upload.getUploadLimits Upload.allowedMimeTypes].
  destruct (JS.lt (JS.Num Upload.MAX_FILE_SIZE) size) eqn:Hbig.
  - split; [done|]. split; [|by eauto]. intros [Hpass%size_check_spec _]. congruence.
  - apply size_check_spec in Hbig.
    destruct (arr_includes Upload.ALLOWED_MIME_TYPES contentType) eqn:Hmime;
      cbn [negb fst snd].
    + split; [done|]. split; [done|]. intros []. split; [done|].
      by apply arr_includes_spec.
    + split; [done|]. split; [|by eauto]. intros [_ Hin%arr_includes_spec]. congruence.
Qed.

Lemma requestUpload_follows_the_limits_witness :
  (Upload.requestUpload (λ key, key) Sample.alice "video/webm" "webm"
     (JS.Num 524288000) 1700000000000 "k3x9q2" Sample.floor_db).1
  = Ok (Upload.mkUploadTicket "clips/alice/1700000000000-k3x9q2.webm"
          "clips/alice/1700000000000-k3x9q2.webm")
  ∧ (Upload.requestUpload (λ key, key) Sample.alice "video/webm" "webm"
       JS.NaN 1700000000000 "k3x9q2" Sample.floor_db).1
    = Ok (Upload.mkUploadTicket "clips/alice/1700000000000-k3x9q2.webm"
            "clips/alice/1700000000000-k3x9q2.webm").
Proof.
  split.
  - apply (proj1 (proj2 (requestUpload_follows_the_limits (λ key, key) Sample.alice
             "video/webm" "webm" (JS.Num 524288000) 1700000000000 "k3x9q2"
             Sample.floor_db))).
    split; [by vm_compute|]. do 3 apply list_elem_of_further. apply list_elem_of_here.
  - apply (proj1 (proj2 (requestUpload_follows_the_limits (λ key, key) Sample.alice
             "video/webm" "webm" JS.NaN 1700000000000 "k3x9q2" Sample.floor_db))).
    split; [done|]. do 3 apply list_elem_of_further. apply list_elem_of_here.
Defined.

(** ** Deleting and updating a clip *)

(** X16.  [deleteClip] on a clip of the caller succeeds and removes that
    document alone: every other clip and every session stays; afterwards
    [get] and a second [deleteClip] with the same id fail with "Clip not
    found or access denied". *)
Theorem deleteClip_removes_the_clip auth id clip db :
  clips db !! id = Some clip →
  Clip.userId clip = getCurrentUserId auth →
  ∃ db',
    Clips.deleteClip auth id db = (Ok success, db')
    ∧ clips db' !! id = None
    ∧ (∀ j, j ≠ id → clips db' !! j = clips db !! j)
    ∧ sessions db' = sessions db
    ∧ Clips.get auth id db' = Throw "Clip not found or access denied"
    ∧ Clips.deleteClip auth id db' = (Throw "Clip not found or access denied", db').
Proof.
  intros Hc Hown. unfold Clips.deleteClip at 1.
  rewrite Hc, (not_mine_owned clip _ Hown).
  eexists. split; [reflexivity|]. cbn [clips sessions].
  split; [apply lookup_delete_eq|]. split; [|split; [done|]].
  - intros j Hj. by apply lookup_delete_ne.
  - unfold Clips.get, Clips.deleteClip. cbn [clips]. by rewrite lookup_delete_eq.
Qed.

Lemma deleteClip_removes_the_clip_witness :
  (Clips.deleteClip Sample.alice 1 Sample.floor_db).1 = Ok success
  ∧ clips (Clips.deleteClip Sample.alice 1 Sample.floor_db).2 !! 1%positive = None.
Proof.
  destruct (deleteClip_removes_the_clip Sample.alice 1 Sample.floor_clip
              Sample.floor_db) as (db' & -> & Hgone & _); [by vm_compute..|].
  by split.
Defined.

(** X17.  After a successful [deleteClip] the clip is in no listing and in
    no search sequence of any caller, and every other document is in them
    exactly when it was before. *)
Theorem deleted_clip_leaves_every_listing auth id clip db viewer :
  clips db !! id = Some clip →
  Clip.userId clip = getCurrentUserId auth →
  let db' := (Clips.deleteClip auth id db).2 in
  (∀ args (d : ClipDoc),
     d ∈ Clips.results viewer args db' ↔ d ∈ Clips.results viewer args db ∧ d.1 ≠ id)
  ∧ (∀ q (d : ClipDoc), Search.tokenize q ≠ [] →
     (d ∈ Spec.search_sequence viewer q db'
      ↔ d ∈ Spec.search_sequence viewer q db ∧ d.1 ≠ id)).
Proof.
  intros Hc Hown db'. subst db'. unfold Clips.deleteClip.
  rewrite Hc, (not_mine_owned clip _ Hown). cbn [snd].
  assert (∀ d : ClipDoc,
            delete id (clips db) !! d.1 = Some d.2
            ↔ clips db !! d.1 = Some d.2 ∧ d.1 ≠ id) as Hdel.
  { intros d. rewrite lookup_delete_Some.
    split; [intros [Hne Hd]; split; [done | by intros Heq] | intros [Hd Hne]].
    split; [by intros Heq | done]. }
  split.
  - intros args d. rewrite !elem_of_results. cbn [clips]. rewrite Hdel. tauto.
  - intros q d Hq. unfold Spec.search_sequence.
    destruct (Search.tokenize q) as [|t ts] eqn:E; [done|].
    rewrite !elem_of_matchingClips. cbn [clips]. rewrite Hdel. tauto.
Qed.

Lemma deleted_clip_leaves_every_listing_witness :
  (1%positive, Sample.floor_clip)
    ∉ Clips.results Sample.alice (Sample.pages_of 10)
        (Clips.deleteClip Sample.alice 1 Sample.floor_db).2.
Proof.
  destruct (deleted_clip_leaves_every_listing Sample.alice 1 Sample.floor_clip
              Sample.floor_db Sample.alice) as [Hlist _]; [by vm_compute..|].
  intros [_ Hid]%Hlist. by apply Hid.
Defined.

Section updating.

Lemma patch_clip_twice u c :
  Clips.patch_clip u (Clips.patch_clip u c) = Clips.patch_clip u c.
Proof. by destruct u as [[?|] [?|] [?|] [?|] [?|]]. Qed.

Lemma patch_clip_empty c : Clips.patch_clip Clips.Updates.empty c = c.
Proof. by destruct c. Qed.

Lemma patch_clip_userId u c : Clip.userId (Clips.patch_clip u c) = Clip.userId c.
Proof. reflexivity. Qed.

Lemma updateMeta_owned auth args db clip :
  clips db !! Clips.UpdateMetaArgs.id args = Some clip →
  Clip.userId clip = getCurrentUserId auth →
  Clips.updateMeta auth args db
  = (Ok success,
     mkDb (alter (Clips.patch_clip (Shape.updates_of args)) (Clips.UpdateMetaArgs.id args)
             (clips db))
       (sessions db) (next_id db)).
Proof.
  intros Hc Hown. unfold Clips.updateMeta.
  rewrite Hc, (not_mine_owned clip _ Hown).
  by destruct args as [id [?|] [?|] [?|] [?|] [?|]].
Qed.

End updating.

(** X18.  [updateMeta] checks the clip and nothing else: it succeeds
    exactly when the clip is stored and belongs to the caller, and a
    supplied session id is written as it is, whether or not a session with
    that id exists or belongs to the caller. *)
Theorem updateMeta_checks_only_the_clip auth args db :
  ((Clips.updateMeta auth args db).1 = Ok success
   ↔ ∃ clip, clips db !! Clips.UpdateMetaArgs.id args = Some clip
       ∧ Clip.userId clip = getCurrentUserId auth)
  ∧ (∀ s, Clips.UpdateMetaArgs.sessionId args = Some s →
       (Clips.updateMeta auth args db).1 = Ok success →
       Clip.sessionId <$>
         clips (Clips.updateMeta auth args db).2 !! Clips.UpdateMetaArgs.id args
       = Some (Some s)).
Proof.
  split; [split|].
  - unfold Clips.updateMeta. destruct (Clips.not_mine _ _) eqn:Hmine; [done|].
    intros _. by apply not_mine_false.
  - intros (clip & Hc & Hown). by rewrite (updateMeta_owned auth args db clip).
  - intros s Hs. unfold Clips.updateMeta.
    destruct (Clips.not_mine _ _) eqn:Hmine; [done|]. intros _.
    apply not_mine_false in Hmine as (c & Hc & _).
    cbn [snd clips]. rewrite lookup_alter_eq, Hc.
    destruct args as [id [?|] [?|] [?|] [?|] [?|]]; cbn in *; by simplify_eq.
Qed.

Lemma updateMeta_checks_only_the_clip_witness :
  Clip.sessionId <$>
    clips (Clips.updateMeta Sample.alice
             (Clips.UpdateMetaArgs.mk 1 None None None None (Some 77%positive))
             Sample.floor_db).2 !! 1%positive
  = Some (Some 77%positive).
Proof.
  apply (proj2 (updateMeta_checks_only_the_clip Sample.alice
           (Clips.UpdateMetaArgs.mk 1 None None None None (Some 77%positive))
           Sample.floor_db) 77%positive eq_refl).
  by vm_compute.
Defined.

(** X19.  [updateMeta] can be repeated: the same call made a second time
    has the same outcome and leaves the database as the first call left it.
    A call that supplies no field at all leaves the database unchanged. *)
Theorem updateMeta_is_idempotent auth args db :
  Clips.updateMeta auth args (Clips.updateMeta auth args db).2
    = Clips.updateMeta auth args db
  ∧ ∀ id, Clips.updateMeta auth (Shape.touch id) db
          = ((Clips.updateMeta auth (Shape.touch id) db).1, db).
Proof.
  split.
  - destruct (Clips.not_mine (clips db !! Clips.UpdateMetaArgs.id args)
                (getCurrentUserId auth)) eqn:Hmine.
    + unfold Clips.updateMeta at 2 3. rewrite Hmine. cbn [snd].
      unfold Clips.updateMeta. by rewrite Hmine.
    + apply not_mine_false in Hmine as (c & Hc & Hown).
      rewrite (updateMeta_owned auth args db c Hc Hown). cbn [snd].
      rewrite (updateMeta_owned auth args _ (Clips.patch_clip (Shape.updates_of args) c)).
      * cbn [clips sessions next_id]. do 2 f_equal.
        apply map_eq. intros j.
        destruct (decide (Clips.UpdateMetaArgs.id args = j)) as [<-|Hne].
        -- rewrite !lookup_alter_eq, Hc. cbn. by rewrite patch_clip_twice.
        -- by rewrite !lookup_alter_ne.
      * cbn [clips]. by rewrite lookup_alter_eq, Hc.
      * done.
  - intros id. unfold Clips.updateMeta. cbn [Shape.touch Clips.UpdateMetaArgs.id].
    destruct (Clips.not_mine _ _); [done|]. cbn [fst]. f_equal.
    destruct db as [cl se nx]. cbn. f_equal.
    apply map_eq. intros j. destruct (decide (id = j)) as [<-|Hne].
    + rewrite lookup_alter_eq. destruct (cl !! id) as [c|]; [|done].
      cbn. by rewrite patch_clip_empty.
    + by rewrite lookup_alter_ne.
Qed.

(** X20.  What [updateMeta] writes, [list] finds: after a successful call
    that supplies [favorite = f], the clip is in the caller's listing for
    [favorite: f] and not in the one for the opposite value; after a call
    that supplies tags, it is in the listing for every tag filter that
    names one of them. *)
Theorem updated_clip_is_listed auth args db clip opts :
  clips db !! Clips.UpdateMetaArgs.id args = Some clip →
  Clip.userId clip = getCurrentUserId auth →
  let id := Clips.UpdateMetaArgs.id args in
  let db' := (Clips.updateMeta auth args db).2 in
  let clip' := Clips.patch_clip (Shape.updates_of args) clip in
  clips db' !! id = Some clip'
  ∧ (∀ f, Clips.UpdateMetaArgs.favorite args = Some f →
       (id, clip') ∈ Clips.results auth (Shape.favorite_only opts f) db'
       ∧ ∀ d : ClipDoc, d ∈ Clips.results auth (Shape.favorite_only opts (negb f)) db' →
           d.1 ≠ id)
  ∧ (∀ ts tag filter, Clips.UpdateMetaArgs.tags args = Some ts →
       tag ∈ ts → tag ∈ filter →
       (id, clip') ∈ Clips.results auth (Shape.tags_only opts filter) db').
Proof.
  intros Hc Hown id db' clip'. subst id db' clip'.
  rewrite (updateMeta_owned auth args db clip Hc Hown). cbn [snd].
  assert (alter (Clips.patch_clip (Shape.updates_of args)) (Clips.UpdateMetaArgs.id args)
            (clips db) !! Clips.UpdateMetaArgs.id args
          = Some (Clips.patch_clip (Shape.updates_of args) clip)) as Hnew.
  { by rewrite lookup_alter_eq, Hc. }
  split; [exact Hnew|]. split.
  - intros f Hf. split.
    + apply elem_of_results. cbn [clips fst snd]. split; [by split|].
      constructor; cbn; try done. intros ? [= <-].
      unfold Shape.updates_of. by rewrite Hf.
    + intros d [[Hd _] Hpass]%elem_of_results Hid. cbn [clips] in Hd.
      rewrite Hid, Hnew in Hd. injection Hd as Hd.
      pose proof (Spec.passes_favorite _ _ Hpass (negb f) eq_refl) as Hfav.
      rewrite <- Hd in Hfav. unfold Shape.updates_of in Hfav. cbn in Hfav.
      rewrite Hf in Hfav. injection Hfav as Hfav. by destruct f.
  - intros ts tag filter Hts Htag Hfilter.
    apply elem_of_results. cbn [clips fst snd]. split; [by split|].
    constructor; cbn; try done. intros ? [= <-] _. exists tag. split; [done|].
    unfold Shape.updates_of. by rewrite Hts.
Qed.

Lemma updated_clip_is_listed_witness :
  (2%positive,
   Clips.patch_clip
     (Shape.updates_of (Clips.UpdateMetaArgs.mk 2 (Some ["press"]) None None (Some true) None))
     Sample.filed_clip)
    ∈ Clips.results Sample.alice (Shape.favorite_only (Sample.first_page 10) true)
        (Clips.updateMeta Sample.alice
           (Clips.UpdateMetaArgs.mk 2 (Some ["press"]) None None (Some true) None)
           Sample.session_db).2.
Proof.
  destruct (updated_clip_is_listed Sample.alice
              (Clips.UpdateMetaArgs.mk 2 (Some ["press"]) None None (Some true) None)
              Sample.session_db Sample.filed_clip (Sample.first_page 10))
    as (_ & Hfav & _); [by vm_compute..|].
  by apply (Hfav true eq_refl).
Defined.

(** ** Sessions *)

Section sessions_facts.

#[local] Instance newer_session_first_total : Total newer_session_first.
Proof. intros a b. unfold newer_session_first. lia. Qed.

#[local] Instance newer_session_first_trans : Transitive newer_session_first.
Proof. intros a b c. unfold newer_session_first. lia. Qed.

Lemma session_not_mine_absent_or_foreign (session : option Session.t) userId :
  session = None ∨ (∃ s, session = Some s ∧ Session.userId s ≠ userId) →
  Sessions.not_mine session userId = true.
Proof.
  intros [-> | (s & -> & Hne)]; [done|]. simpl.
  by apply negb_true_iff, String.eqb_neq.
Qed.

Lemma session_not_mine_owned (s : Session.t) userId :
  Session.userId s = userId → Sessions.not_mine (Some s) userId = false.
Proof. intros <-. simpl. by rewrite String.eqb_refl. Qed.

Lemma elem_of_sessions_list auth db (d : SessionDoc) :
  d ∈ Sessions.list auth db
  ↔ sessions db !! d.1 = Some d.2 ∧ Session.userId d.2 = getCurrentUserId auth.
Proof.
  unfold Sessions.list, sessions_order_desc, sessions_by_user.
  rewrite merge_sort_Permutation, list_elem_of_filter, elem_of_map_to_list'. tauto.
Qed.

Lemma sessions_list_sorted auth db :
  StronglySorted newer_session_first (Sessions.list auth db).
Proof. apply StronglySorted_merge_sort; apply _. Qed.

End sessions_facts.

(** X21.  When no session has the id, or the session under it belongs to
    someone else, [rename] and [deleteSession] fail with the one message
    "Session not found or access denied" and leave the database as it
    was. *)
Theorem absent_or_foreign_session_is_denied auth id db :
  sessions db !! id = None
  ∨ (∃ s, sessions db !! id = Some s ∧ Session.userId s ≠ getCurrentUserId auth) →
  (∀ name, Sessions.rename auth id name db
           = (Throw "Session not found or access denied", db))
  ∧ Sessions.deleteSession auth id db
    = (Throw "Session not found or access denied", db).
Proof.
  intros H%session_not_mine_absent_or_foreign. split.
  - intros name. unfold Sessions.rename. by rewrite H.
  - unfold Sessions.deleteSession. by rewrite H.
Qed.

Lemma absent_or_foreign_session_is_denied_witness :
  Sessions.deleteSession Sample.bob 1 Sample.session_db
  = (Throw "Session not found or access denied", Sample.session_db).
Proof.
  apply (absent_or_foreign_session_is_denied Sample.bob 1 Sample.session_db).
  right. exists Sample.monday. split; by vm_compute.
Defined.

(** X22.  [rename] on a session of the caller succeeds and changes the
    name alone: owner and creation time of the session stay, every other
    session and every clip stays, and the caller's session list shows the
    session under its new name. *)
Theorem rename_changes_only_the_name auth id name s db :
  sessions db !! id = Some s →
  Session.userId s = getCurrentUserId auth →
  ∃ db',
    Sessions.rename auth id name db = (Ok success, db')
    ∧ sessions db' !! id = Some (Session.mk (Session.userId s) name (Session.createdAt s))
    ∧ (∀ j, j ≠ id → sessions db' !! j = sessions db !! j)
    ∧ clips db' = clips db
    ∧ (id, Session.mk (Session.userId s) name (Session.createdAt s))
        ∈ Sessions.list auth db'.
Proof.
  intros Hs Hown. unfold Sessions.rename.
  rewrite Hs, (session_not_mine_owned s _ Hown).
  eexists. split; [reflexivity|]. cbn [clips sessions].
  assert (alter (λ s0, Session.mk (Session.userId s0) name (Session.createdAt s0))
            id (sessions db) !! id
          = Some (Session.mk (Session.userId s) name (Session.createdAt s))) as Hnew.
  { by rewrite lookup_alter_eq, Hs. }
  split; [exact Hnew|]. split; [|split; [done|]].
  - intros j Hj. by apply lookup_alter_ne.
  - apply elem_of_sessions_list. cbn [sessions fst snd]. by split.
Qed.

Lemma rename_changes_only_the_name_witness :
  (Sessions.rename Sample.alice 1 "Tuesday" Sample.session_db).1 = Ok success
  ∧ sessions (Sessions.rename Sample.alice 1 "Tuesday" Sample.session_db).2
      !! 1%positive = Some (Session.mk "alice" "Tuesday" 50).
Proof.
  destruct (rename_changes_only_the_name Sample.alice 1 "Tuesday" Sample.monday
              Sample.session_db) as (db' & -> & Hnew & _); [by vm_compute..|].
  by split.
Defined.

(** X23.  The session list holds exactly the sessions of the caller,
    newest first.  For a caller whose id is an id of the users table
    [create] succeeds, stores a session with the caller as owner, the given
    name and the time of the call, touches no clip, and the new session is
    in the caller's list right away; for any other caller, as every
    unauthenticated one, [create] throws and stores nothing. *)
Theorem sessions_list_and_create auth db :
  (∀ d : SessionDoc,
     d ∈ Sessions.list auth db
     ↔ sessions db !! d.1 = Some d.2 ∧ Session.userId d.2 = getCurrentUserId auth)
  ∧ StronglySorted newer_session_first (Sessions.list auth db)
  ∧ (is_users_id (getCurrentUserId auth) = true →
     ∀ name now,
       ∃ id db',
         Sessions.create auth name now db = (Ok id, db')
         ∧ sessions db' !! id = Some (Session.mk (getCurrentUserId auth) name now)
         ∧ clips db' = clips db
         ∧ (id, Session.mk (getCurrentUserId auth) name now) ∈ Sessions.list auth db')
  ∧ (is_users_id (getCurrentUserId auth) = false →
     ∀ name now, ∃ msg, Sessions.create auth name now db = (Throw msg, db))
  ∧ (∀ name now, ∃ msg, Sessions.create None name now db = (Throw msg, db)).
Proof.
  split; [apply elem_of_sessions_list|]. split; [apply sessions_list_sorted|].
  split; [|split].
  - intros Hid name now. unfold Sessions.create, insert_session.
    cbn [Session.userId]. rewrite Hid.
    eexists _, _. split; [reflexivity|]. cbn [sessions clips].
    split; [apply lookup_insert_eq|]. split; [done|].
    apply elem_of_sessions_list. cbn [sessions fst snd].
    split; [apply lookup_insert_eq | done].
  - intros Hid name now. unfold Sessions.create, insert_session.
    cbn [Session.userId]. rewrite Hid. by eauto.
  - intros name now. by eauto.
Qed.

Lemma sessions_list_and_create_witness :
  ∃ id db',
    Sessions.create Sample.bob "Friday" 700 Sample.session_db = (Ok id, db')
    ∧ (id, Session.mk "bob" "Friday" 700) ∈ Sessions.list Sample.bob db'.
Proof.
  destruct (proj1 (proj2 (proj2 (sessions_list_and_create Sample.bob Sample.session_db)))
              eq_refl "Friday" 700) as (id & db' & E & _ & _ & Hin).
  exists id, db'. by split.
Defined.

(** ** What the listings read *)

Lemma by_user_reads_clips userId db db' :
  clips db' = clips db →
  by_user_and_created_at userId db' = by_user_and_created_at userId db.
Proof. unfold by_user_and_created_at. by intros ->. Qed.

Lemma list_reads_clips auth args db db' :
  clips db' = clips db → Clips.list auth args db' = Clips.list auth args db.
Proof.
  intros H. unfold Clips.list, Clips.results. by rewrite (by_user_reads_clips _ _ _ H).
Qed.

Lemma query_reads_clips auth q limit cursor db db' :
  clips db' = clips db →
  Search.query auth q limit cursor db' = Search.query auth q limit cursor db.
Proof.
  intros H. unfold Search.query, Search.matchingClips.
  by rewrite (by_user_reads_clips _ _ _ H).
Qed.

Lemma step_leaves_clips db call :
  Shape.leaves_clips call = true → clips (step db call) = clips db.
Proof.
  destruct call as [auth ct ext size now rnd | | | | auth name now
                   | auth id name | auth id]; try done; intros _; cbn [step].
  - unfold Upload.requestUpload.
    destruct (JS.lt _ _); [done|]. by destruct (negb _).
  - unfold Sessions.create, insert_session. by destruct (is_users_id _).
  - unfold Sessions.rename. by destruct (Sessions.not_mine _ _).
  - unfold Sessions.deleteSession. by destruct (Sessions.not_mine _ _).
Qed.

(** X24.  Creating, renaming and deleting sessions, and requesting an
    upload, change no answer of [list] and [query]: for every caller,
    filter, query text, limit and cursor the result after such a call is
    the result before it. *)
Theorem session_calls_change_no_listing db call :
  Shape.leaves_clips call = true →
  (∀ auth args, Clips.list auth args (step db call) = Clips.list auth args db)
  ∧ (∀ auth q limit cursor,
       Search.query auth q limit cursor (step db call)
       = Search.query auth q limit cursor db).
Proof.
  intros H%(step_leaves_clips db). split.
  - intros. by apply list_reads_clips.
  - intros. by apply query_reads_clips.
Qed.

Lemma session_calls_change_no_listing_witness :
  Clips.list Sample.alice (Sample.pages_of 10)
    (step Sample.session_db (CallDeleteSession Sample.alice 1))
  = Clips.list Sample.alice (Sample.pages_of 10) Sample.session_db.
Proof.
  apply (proj1 (session_calls_change_no_listing Sample.session_db
                  (CallDeleteSession Sample.alice 1) eq_refl)).
Defined.

(** ** What holds of every clip the calls can produce *)

Section reachable_clips.

Variable P : Clip.t → Prop.
Hypothesis P_patch : ∀ u c, P c → P (Clips.patch_clip u c).
Hypothesis P_new : ∀ auth args now,
  Upload.FinalizeArgs.bytes args <= Upload.MAX_FILE_SIZE →
  P (Shape.fresh_clip auth args now).

Lemma step_keeps_clip_property db call :
  (∀ i c, clips db !! i = Some c → P c) →
  ∀ i c, clips (step db call) !! i = Some c → P c.
Proof.
  intros Hdb.
  destruct call as [auth ct ext size now rnd | auth args now | auth args
                   | auth id | auth name now | auth id name | auth id];
    try (rewrite step_leaves_clips by done; exact Hdb); cbn [step].
  - unfold Upload.finalizeUpload, insert_clip.
    destruct (Z.ltb_spec Upload.MAX_FILE_SIZE (Upload.FinalizeArgs.bytes args));
      [exact Hdb|].
    destruct (is_users_id _); [|exact Hdb].
    cbn [snd clips]. intros i c. rewrite lookup_insert.
    case_decide; [|by apply Hdb]. intros [= <-]. by apply P_new.
  - unfold Clips.updateMeta. destruct (Clips.not_mine _ _); [exact Hdb|].
    cbn [snd clips]. intros i c. rewrite lookup_alter.
    case_decide; [|by apply Hdb].
    intros (c0 & Hc0 & ->)%fmap_Some. apply P_patch. by eapply Hdb.
  - unfold Clips.deleteClip. destruct (Clips.not_mine _ _); [exact Hdb|].
    cbn [snd clips]. intros i c [_ Hc]%lookup_delete_Some. by eapply Hdb.
Qed.

Lemma reachable_clip_property db :
  reachable db → ∀ i c, clips db !! i = Some c → P c.
Proof.
  intros [calls <-]. induction calls as [|call calls IH] using rev_ind.
  - intros i c. unfold run. cbn [foldl empty_db clips]. by rewrite lookup_empty.
  - unfold run in *. rewrite foldl_snoc. by apply step_keeps_clip_property.
Qed.

End reachable_clips.

(** X25.  In every database the calls can produce from the empty one,
    every clip stores a [favorite] value ([finalizeUpload] writes [false],
    [updateMeta] only overwrites it); so there the listings for
    [favorite: true] and [favorite: false] together hold exactly the
    caller's clips. *)
Theorem reachable_clips_store_favorite db :
  reachable db →
  (∀ id clip, clips db !! id = Some clip → is_Some (Clip.favorite clip))
  ∧ (∀ auth opts (d : ClipDoc),
       d ∈ Clips.results auth (Spec.no_filters opts) db
       ↔ d ∈ Clips.results auth (Shape.favorite_only opts true) db
         ∨ d ∈ Clips.results auth (Shape.favorite_only opts false) db).
Proof.
  intros Hreach.
  assert (∀ id clip, clips db !! id = Some clip → is_Some (Clip.favorite clip)) as Hfav.
  { apply (reachable_clip_property (λ c, is_Some (Clip.favorite c))); [| |done].
    - intros [? ? ? [f|] ?] c Hc; cbn; [by eexists | done].
    - intros. cbn. by eexists. }
  split; [exact Hfav|]. intros auth opts d. rewrite !elem_of_results. split.
  - intros [[Hd Hown] _]. destruct (Hfav _ _ Hd) as [[] Hf]; [left | right];
      (split; [done|]); constructor; cbn; try done; by intros ? [= <-].
  - intros [[Hd _] | [Hd _]]; (split; [done|]); by constructor.
Qed.

Lemma reachable_clips_store_favorite_witness :
  is_Some (Clip.favorite Sample.filed_clip).
Proof.
  apply (proj1 (reachable_clips_store_favorite Sample.session_db
                  (ex_intro _ _ eq_refl)) 2%positive Sample.filed_clip).
  by vm_compute.
Defined.

(** X26.  In every database the calls can produce from the empty one, no
    clip is larger than 500 MB: [finalizeUpload] is the only call that
    writes [bytes], and it checks the size. *)
Theorem reachable_clips_respect_the_size_limit db :
  reachable db →
  ∀ id clip, clips db !! id = Some clip → Clip.bytes clip <= 524288000.
Proof.
  intros Hreach.
  apply (reachable_clip_property (λ c, Clip.bytes c <= 524288000)); [| |done].
  - by intros u c.
  - intros auth args now. done.
Qed.

Lemma reachable_clips_respect_the_size_limit_witness :
  Clip.bytes Sample.filed_clip <= 524288000.
Proof.
  apply (reachable_clips_respect_the_size_limit Sample.session_db
           (ex_intro _ _ eq_refl) 2%positive Sample.filed_clip).
  by vm_compute.
Defined.

(** ** Search and listing side by side *)

Lemma js_filter_sublist {A} (f : A → bool) l : List.filter f l `sublist_of` l.
Proof.
  induction l as [|x l IH]; simpl; [constructor|].
  destruct (f x); by constructor.
Qed.

(** X27.  Search selects from the listing: the sequence [query] paginates
    is a subsequence, in the same order, of the sequence [list] paginates
    for the same caller without filters. *)
Theorem search_sequence_is_part_of_the_listing auth q db opts :
  Spec.search_sequence auth q db
    `sublist_of` Clips.results auth (Spec.no_filters opts) db.
Proof.
  change (Clips.results auth (Spec.no_filters opts) db)
    with (order_desc (by_user_and_created_at (getCurrentUserId auth) db)).
  unfold Spec.search_sequence, Search.matchingClips.
  destruct (Search.tokenize q); [apply sublist_nil_l | apply js_filter_sublist].
Qed.

(** X28.  The tokens a clip is searched by are the tokens of its fields,
    one field after the other: those of each tag in order, then those of
    the object key, of the angle and of the apparatus.  No token runs
    across two fields. *)
Theorem search_tokens_are_the_tokens_of_the_fields clip :
  Search.tokenize (JS.toLowerCase (JS.join " " (Search.searchableFields clip)))
  = (concat (Search.tokenize <$> Clip.tags clip)
     ++ Search.tokenize (Clip.objectKey clip)
     ++ Search.tokenize (from_option angle_str "" (Clip.angle clip))
     ++ Search.tokenize (from_option apparatus_str "" (Clip.apparatus clip)))%list.
Proof.
  rewrite searchTokens_fields. unfold Search.searchableFields.
  rewrite fmap_app, concat_app. cbn [fmap list_fmap concat]. rewrite app_nil_r.
  by destruct (Clip.angle clip) as [[]|], (Clip.apparatus clip) as [[]|].
Qed.
